(** * V-trace targets of IMPALA: [parl/algorithms/paddle/impala/vtrace.py]

    A shallow embedding of [from_importance_weights] and of the handful of
    tensor operations it calls, followed by the properties of its outputs.

    Numbers.  The source computes on float32 tensors.  The function is
    embedded once, over any arithmetic ([arith]), and read in two of them.
    In [exact] every element is a real number and sums, products, [exp] and
    [min] are the exact ones: rounding, overflow and NaN are outside it.  In
    [f32] an element is a real number within the float32 range, an infinity
    or NaN; results beyond the range become infinities, [exp] overflows and
    underflows, and the infinities and NaN follow IEEE 754; rounding of
    results within the range is left out and zero has no sign.  A clip
    threshold is a real number or [+inf].

    Tensors.  A tensor is a nested list that records, at every axis, the
    shape of its items, so that an axis of length 0 keeps the dimensions
    below it; its rank is the nesting depth. *)

From Stdlib Require Import Reals List Lia Lra ZArith Bool PeanoNat.
Import ListNotations.
Open Scope R_scope.

(** ** Exceptions as results *)

Inductive error : Type :=
| AssertionError   (* a failed [assert] of the function itself *)
| TensorError.     (* raised inside a tensor operation: shapes, indices *)

Inductive result (A : Type) : Type :=
| Ok (a : A)
| Err (e : error).
Arguments Ok {A} a.
Arguments Err {A} e.

Definition bind {A B : Type} (m : result A) (k : A -> result B) : result B :=
  match m with
  | Ok a => k a
  | Err e => Err e
  end.

Notation "x <- m ;; k" := (bind m (fun x => k))
  (at level 61, m at next level, right associativity).
Notation "' pat <- m ;; k" := (bind m (fun x => match x with pat => k end))
  (at level 61, pat pattern, m at next level, right associativity).

Definition assert (b : bool) : result unit :=
  if b then Ok tt else Err AssertionError.

Section Traverse.
Context {A B C : Type}.

Fixpoint mapM (f : A -> result B) (l : list A) : result (list B) :=
  match l with
  | [] => Ok []
  | a :: l' => b <- f a ;; bs <- mapM f l' ;; Ok (b :: bs)
  end.

Fixpoint zipM (f : A -> B -> result C) (l : list A) (r : list B)
  : result (list C) :=
  match l, r with
  | [], [] => Ok []
  | a :: l', b :: r' => c <- f a b ;; cs <- zipM f l' r' ;; Ok (c :: cs)
  | _, _ => Err TensorError
  end.
End Traverse.

(** ** Tensors *)

(** [Dim inner items] is an array whose first axis has the length of
    [items] and whose items have the shape [inner]. *)
#[local] Unset Elimination Schemes.
Inductive tensor (A : Type) : Type :=
| Scalar (x : A)
| Dim (inner : list nat) (items : list (tensor A)).
#[local] Set Elimination Schemes.
Arguments Scalar {A} x.
Arguments Dim {A} inner items.

Section Tensors.
Context {A : Type}.

(** [t.shape] *)
Definition shape (t : tensor A) : list nat :=
  match t with
  | Scalar _ => []
  | Dim inner items => length items :: inner
  end.

(** [len(t.shape)] *)
Definition rank (t : tensor A) : nat := length (shape t).

Definition shape_eqb (s1 s2 : list nat) : bool :=
  if list_eq_dec Nat.eq_dec s1 s2 then true else false.

Definition same_shapes (l : list (tensor A)) : bool :=
  match l with
  | [] => true
  | x :: l' => forallb (fun y => shape_eqb (shape y) (shape x)) l'
  end.

(** Elementwise unary operations. *)
Fixpoint tmap (f : A -> A) (t : tensor A) : tensor A :=
  match t with
  | Scalar x => Scalar (f x)
  | Dim inner items => Dim inner (map (tmap f) items)
  end.

(** [paddle.unsqueeze(t, 0)] *)
Definition unsqueeze (t : tensor A) : tensor A := Dim (shape t) [t].

Fixpoint unsqueeze_n (n : nat) (t : tensor A) : tensor A :=
  match n with
  | O => t
  | S k => unsqueeze (unsqueeze_n k t)
  end.

(** The length of an axis of the result of a broadcast. *)
Definition broadcast_dim (m n : nat) : result nat :=
  if (m =? n)%nat then Ok m
  else if (m =? 1)%nat then Ok n
  else if (n =? 1)%nat then Ok m
  else Err TensorError.

(** Elementwise binary operation on two tensors of the same rank, an axis of
    length 1 being stretched to the length of the other operand's. *)
Fixpoint broadcast (f : A -> A -> A) (a b : tensor A) {struct a}
  : result (tensor A) :=
  match a, b with
  | Scalar x, Scalar y => Ok (Scalar (f x y))
  | Dim s xs, Dim s' ys =>
      inner <- zipM broadcast_dim s s' ;;
      match xs, ys with
      | [x], _ =>
          zs <- mapM (fun y => broadcast f x y) ys ;; Ok (Dim inner zs)
      | _, [y] =>
          zs <- mapM (fun x => broadcast f x y) xs ;; Ok (Dim inner zs)
      | _, _ => zs <- zipM (broadcast f) xs ys ;; Ok (Dim inner zs)
      end
  | _, _ => Err TensorError
  end.

(** Binary operators of tensors: the operand of lower rank gets leading axes
    of length 1, then the shapes are broadcast against each other. *)
Definition binop (f : A -> A -> A) (a b : tensor A) : result (tensor A) :=
  broadcast f (unsqueeze_n (rank b - rank a) a)
              (unsqueeze_n (rank a - rank b) b).

(** [t[1:]] *)
Definition slice_from_1 (t : tensor A) : result (tensor A) :=
  match t with
  | Scalar _ => Err TensorError
  | Dim inner items => Ok (Dim inner (tl items))
  end.

(** [t[i]] for an index [i >= 0] *)
Definition tindex (t : tensor A) (i : nat) : result (tensor A) :=
  match t with
  | Scalar _ => Err TensorError
  | Dim _ items =>
      match nth_error items i with
      | Some x => Ok x
      | None => Err TensorError
      end
  end.

(** [t.shape[0]] *)
Definition shape0 (t : tensor A) : result nat :=
  match shape t with
  | n :: _ => Ok n
  | [] => Err TensorError
  end.

(** [paddle.concat([a, b], axis=0)]: the shapes must agree on every axis
    but the first. *)
Definition concat (a b : tensor A) : result (tensor A) :=
  match a, b with
  | Dim s xs, Dim s' ys =>
      if shape_eqb s s' then Ok (Dim s (xs ++ ys)) else Err TensorError
  | _, _ => Err TensorError
  end.

(** [paddle.stack(l)] *)
Definition stack (l : list (tensor A)) : result (tensor A) :=
  match l with
  | [] => Err TensorError
  | x :: _ => if same_shapes l then Ok (Dim (shape x) l) else Err TensorError
  end.

(** [x[t][b]] of a rank 2 tensor and [v[b]] of a rank 1 tensor, as numbers. *)
Definition item (x : tensor A) : result A :=
  match x with
  | Scalar r => Ok r
  | Dim _ _ => Err TensorError
  end.

Definition entry1 (x : tensor A) (b : nat) : result A :=
  e <- tindex x b ;; item e.

Definition entry (x : tensor A) (t b : nat) : result A :=
  row <- tindex x t ;; entry1 row b.

(** Lists as tensors of rank 1 and 2. *)
Definition of_vector (v : list A) : tensor A := Dim [] (map Scalar v).

Definition width (m : list (list A)) : nat :=
  match m with
  | [] => O
  | row :: _ => length row
  end.

Definition of_matrix (m : list (list A)) : tensor A :=
  Dim [width m] (map of_vector m).

Definition tabulate {X : Type} (n : nat) (f : nat -> X) : list X :=
  map f (seq 0 n).

Definition vec (B : nat) (g : nat -> A) : tensor A :=
  of_vector (tabulate B g).
Definition mat (T B : nat) (g : nat -> nat -> A) : tensor A :=
  of_matrix (tabulate T (fun t => tabulate B (g t))).

Definition is_matrix (T B : nat) (m : list (list A)) : Prop :=
  length m = T /\ Forall (fun row => length row = B) m.

End Tensors.

(** ** Arithmetics *)

(** A clip bound is a float: a real number or [+inf]. *)
Inductive threshold : Type :=
| Finite (m : R)
| PosInf.

(** The elements of a tensor and the operations the function applies to
    them: [0], [+], [-], [*], [exp] and clipping from above. *)
Record arith : Type := mkArith {
  num : Type;
  n_zero : num;
  n_add : num -> num -> num;
  n_sub : num -> num -> num;
  n_mul : num -> num -> num;
  n_exp : num -> num;
  n_clip : threshold -> num -> num
}.

(** Exact real numbers. *)
Definition clip_max (m : threshold) (x : R) : R :=
  match m with
  | Finite c => Rmin x c
  | PosInf => x          (* min(x, +inf) = x *)
  end.

Definition exact : arith := mkArith R 0 Rplus Rminus Rmult exp clip_max.
Canonical exact.

(** Float32 values, rounding left out.  [Num r] is a real number; the
    operations return it only within the float32 range, where a float32
    result would be the float nearest to it.  Zero has no sign. *)
Inductive fnum : Type :=
| Num (r : R)
| PInf
| NInf
| NaN.

(** The largest float32, [(2^24 - 1) * 2^104]. *)
Definition FLT_MAX : R := 340282346638528859811704183484516925440.

(** Half the smallest positive float32, [2^-150]: a positive result below
    it is the float 0. *)
Definition FLT_TINY : R := / 1427247692705959881058285969449495136382746624.

(** A real result as a float32: beyond the range it is an infinity. *)
Definition round_range (r : R) : fnum :=
  if Rlt_dec FLT_MAX r then PInf
  else if Rlt_dec r (- FLT_MAX) then NInf
  else Num r.

Definition fneg (x : fnum) : fnum :=
  match x with
  | Num r => Num (- r)
  | PInf => NInf
  | NInf => PInf
  | NaN => NaN
  end.

Definition inf_of (negative : bool) : fnum :=
  if negative then NInf else PInf.

(** An infinity times a number: 0 gives NaN. *)
Definition inf_times (negative : bool) (r : R) : fnum :=
  if Rlt_dec 0 r then inf_of negative
  else if Rlt_dec r 0 then inf_of (negb negative)
  else NaN.

Definition fadd (x y : fnum) : fnum :=
  match x, y with
  | NaN, _ | _, NaN => NaN
  | PInf, NInf | NInf, PInf => NaN
  | PInf, _ | _, PInf => PInf
  | NInf, _ | _, NInf => NInf
  | Num a, Num b => round_range (a + b)
  end.

Definition fsub (x y : fnum) : fnum := fadd x (fneg y).

Definition fmul (x y : fnum) : fnum :=
  match x, y with
  | NaN, _ | _, NaN => NaN
  | PInf, PInf | NInf, NInf => PInf
  | PInf, NInf | NInf, PInf => NInf
  | PInf, Num r | Num r, PInf => inf_times false r
  | NInf, Num r | Num r, NInf => inf_times true r
  | Num a, Num b => round_range (a * b)
  end.

(** [exp] overflows to [+inf] and underflows to 0. *)
Definition fexp (x : fnum) : fnum :=
  match x with
  | NaN => NaN
  | PInf => PInf
  | NInf => Num 0
  | Num r =>
      if Rlt_dec FLT_MAX (exp r) then PInf
      else if Rlt_dec (exp r) FLT_TINY then Num 0
      else Num (exp r)
  end.

(** [paddle.clip(x, max=m)] on one element: the lower bound, left out by
    the caller, is the least float32, and the kernel computes
    [x < lo ? lo : (x > m ? m : x)], whose comparisons are false on NaN. *)
Definition fclip (m : threshold) (x : fnum) : fnum :=
  match x with
  | NaN => NaN
  | NInf => Num (- FLT_MAX)
  | PInf =>
      match m with
      | Finite c => Num c
      | PosInf => PInf
      end
  | Num r =>
      if Rlt_dec r (- FLT_MAX) then Num (- FLT_MAX)
      else match m with
           | Finite c => if Rlt_dec c r then Num c else Num r
           | PosInf => Num r
           end
  end.

Definition f32 : arith := mkArith fnum (Num 0) fadd fsub fmul fexp fclip.
Canonical f32.

(** ** The function *)

Record VTraceReturns (A : Type) : Type := mkVTraceReturns {
  vs : tensor A;
  pg_advantages : tensor A
}.
Arguments mkVTraceReturns {A} vs pg_advantages.
Arguments vs {A} v.
Arguments pg_advantages {A} v.

(** The local variables of [from_importance_weights] at its [return]. *)
Module Locals.
Record t (A : Type) : Type := mk {
  log_rhos : tensor A;
  rhos : tensor A;
  clipped_rhos : tensor A;
  cs : tensor A;
  values_t_plus_1 : tensor A;
  deltas : tensor A;
  acc : tensor A;
  vs_minus_v_xs : tensor A;
  vs : tensor A;
  vs_t_plus_1 : tensor A;
  clipped_pg_rhos : tensor A;
  pg_advantages : tensor A
}.
Arguments mk {A}.
Arguments log_rhos {A}.
Arguments rhos {A}.
Arguments clipped_rhos {A}.
Arguments cs {A}.
Arguments values_t_plus_1 {A}.
Arguments deltas {A}.
Arguments acc {A}.
Arguments vs_minus_v_xs {A}.
Arguments vs {A}.
Arguments vs_t_plus_1 {A}.
Arguments clipped_pg_rhos {A}.
Arguments pg_advantages {A}.
End Locals.

(** [range(n - 1, -1, -1)] *)
Definition range_down (n : nat) : list nat := rev (seq 0 n).

(** A keyword argument the caller may leave out. *)
Inductive kwarg (A : Type) : Type :=
| Omitted
| Given (a : A).
Arguments Omitted {A}.
Arguments Given {A} a.

Definition or_default {A : Type} (d : A) (k : kwarg A) : A :=
  match k with
  | Omitted => d
  | Given a => a
  end.

Section Function.
Context {N : arith}.

Definition tadd : tensor (num N) -> tensor (num N) -> result (tensor (num N)) :=
  binop (n_add N).
Definition tsub : tensor (num N) -> tensor (num N) -> result (tensor (num N)) :=
  binop (n_sub N).
Definition tmul : tensor (num N) -> tensor (num N) -> result (tensor (num N)) :=
  binop (n_mul N).

(** [paddle.exp] *)
Definition texp : tensor (num N) -> tensor (num N) := tmap (n_exp N).

(** [paddle.clip(t, max=m)] *)
Definition clip (t : tensor (num N)) (m : threshold) : tensor (num N) :=
  tmap (n_clip N m) t.

(** [paddle.zeros_like] *)
Definition zeros_like : tensor (num N) -> tensor (num N) :=
  tmap (fun _ => n_zero N).

(** The body of the [for] loop and the loop itself; the state is the pair of
    [acc] and the Python list [result]. *)
Definition loop_body (deltas discounts cs : tensor (num N)) (t : nat)
    (st : tensor (num N) * list (tensor (num N)))
  : result (tensor (num N) * list (tensor (num N))) :=
  let '(acc, result) := st in
  d <- tindex deltas t ;;
  g <- tindex discounts t ;;
  c <- tindex cs t ;;
  gc <- tmul g c ;;
  gca <- tmul gc acc ;;
  acc <- tadd d gca ;;
  Ok (acc, result ++ [acc]).

Fixpoint for_loop (deltas discounts cs : tensor (num N)) (ts : list nat)
    (st : tensor (num N) * list (tensor (num N)))
  : result (tensor (num N) * list (tensor (num N))) :=
  match ts with
  | [] => Ok st
  | t :: ts' =>
      st' <- loop_body deltas discounts cs t st ;;
      for_loop deltas discounts cs ts' st'
  end.

Definition rank_is (t : tensor (num N)) (r : Z) : bool :=
  (Z.of_nat (rank t) =? r)%Z.

(** [from_importance_weights] with both thresholds given ([None] is Python's
    [None]); all locals are returned.  The parameter [name] is never read and
    [paddle.no_grad] does not change values; both are left out. *)
Definition from_importance_weights_locals
    (behaviour_actions_log_probs target_actions_log_probs
     discounts rewards values bootstrap_value : tensor (num N))
    (clip_rho_threshold clip_pg_rho_threshold : option threshold)
  : result (Locals.t (num N)) :=
  let rank := Z.of_nat (rank behaviour_actions_log_probs) in
  _ <- assert (rank_is target_actions_log_probs rank) ;;
  _ <- assert (rank_is values rank) ;;
  _ <- assert (rank_is bootstrap_value (rank - 1)) ;;
  _ <- assert (rank_is discounts rank) ;;
  _ <- assert (rank_is rewards rank) ;;
  log_rhos <- tsub target_actions_log_probs behaviour_actions_log_probs ;;
  let rhos := texp log_rhos in
  let clipped_rhos :=
    match clip_rho_threshold with
    | Some m => clip rhos m
    | None => rhos
    end in
  let cs := clip rhos (Finite 1) in
  values_1 <- slice_from_1 values ;;
  values_t_plus_1 <- concat values_1 (unsqueeze bootstrap_value) ;;
  dv <- tmul discounts values_t_plus_1 ;;
  rdv <- tadd rewards dv ;;
  td <- tsub rdv values ;;
  deltas <- tmul clipped_rhos td ;;
  let acc := zeros_like bootstrap_value in
  let result := [] in
  T <- shape0 discounts ;;
  '(acc, result) <- for_loop deltas discounts cs (range_down T) (acc, result) ;;
  let result := rev result in
  vs_minus_v_xs <- stack result ;;
  vs <- tadd vs_minus_v_xs values ;;
  vs_1 <- slice_from_1 vs ;;
  vs_t_plus_1 <- concat vs_1 (unsqueeze bootstrap_value) ;;
  let clipped_pg_rhos :=
    match clip_pg_rho_threshold with
    | Some m => clip rhos m
    | None => rhos
    end in
  dvs <- tmul discounts vs_t_plus_1 ;;
  rdvs <- tadd rewards dvs ;;
  adv <- tsub rdvs values ;;
  pg_advantages <- tmul clipped_pg_rhos adv ;;
  Ok (Locals.mk log_rhos rhos clipped_rhos cs values_t_plus_1 deltas acc
        vs_minus_v_xs vs vs_t_plus_1 clipped_pg_rhos pg_advantages).

Definition from_importance_weights
    (behaviour_actions_log_probs target_actions_log_probs
     discounts rewards values bootstrap_value : tensor (num N))
    (clip_rho_threshold clip_pg_rho_threshold : option threshold)
  : result (VTraceReturns (num N)) :=
  l <- from_importance_weights_locals
         behaviour_actions_log_probs target_actions_log_probs
         discounts rewards values bootstrap_value
         clip_rho_threshold clip_pg_rho_threshold ;;
  Ok (mkVTraceReturns (Locals.vs l) (Locals.pg_advantages l)).

(** A call of [from_importance_weights]: the defaults of the signature,
    [clip_rho_threshold=1.0] and [clip_pg_rho_threshold=1.0], fill in what
    the caller omits. *)
Definition call_from_importance_weights_locals
    (behaviour_actions_log_probs target_actions_log_probs
     discounts rewards values bootstrap_value : tensor (num N))
    (clip_rho_threshold clip_pg_rho_threshold : kwarg (option threshold))
  : result (Locals.t (num N)) :=
  from_importance_weights_locals
    behaviour_actions_log_probs target_actions_log_probs
    discounts rewards values bootstrap_value
    (or_default (Some (Finite 1)) clip_rho_threshold)
    (or_default (Some (Finite 1)) clip_pg_rho_threshold).

Definition call_from_importance_weights
    (behaviour_actions_log_probs target_actions_log_probs
     discounts rewards values bootstrap_value : tensor (num N))
    (clip_rho_threshold clip_pg_rho_threshold : kwarg (option threshold))
  : result (VTraceReturns (num N)) :=
  from_importance_weights
    behaviour_actions_log_probs target_actions_log_probs
    discounts rewards values bootstrap_value
    (or_default (Some (Finite 1)) clip_rho_threshold)
    (or_default (Some (Finite 1)) clip_pg_rho_threshold).

End Function.

(** ** Vectors and matrices of real numbers

    The inputs of a valid call are [T, B] matrices and a vector of length
    [B].  They are written as lists and turned into tensors; a matrix of a
    known shape is also the table of its entries. *)

Definition vector : Type := list R.
Definition matrix : Type := list (list R).

Definition getv (v : vector) (b : nat) : R := nth b v 0.
Definition get (m : matrix) (t b : nat) : R := nth b (nth t m []) 0.

(** ** The outputs as the specification words them

    The arguments of a call on [T, B] arrays, and each quantity of the
    algorithm written entry by entry, for the time step [t] and the batch
    lane [b]. *)

Module Spec.

Record inputs : Type := mkInputs {
  behaviour_log_probs : matrix;
  target_log_probs : matrix;
  discounts : matrix;
  rewards : matrix;
  values : matrix;
  bootstrap_value : vector
}.

(** All [T, B] arrays of identical shape, [T >= 1], [B >= 1], and
    [bootstrap_value] of shape [B]. *)
Definition valid (T B : nat) (i : inputs) : Prop :=
  (1 <= T)%nat /\ (1 <= B)%nat /\
  is_matrix T B (behaviour_log_probs i) /\
  is_matrix T B (target_log_probs i) /\
  is_matrix T B (discounts i) /\
  is_matrix T B (rewards i) /\
  is_matrix T B (values i) /\
  length (bootstrap_value i) = B.

(** Clipping from above at a threshold that may be absent. *)
Definition clipped (thr : option threshold) (x : R) : R :=
  match thr with
  | Some m => clip_max m x
  | None => x
  end.

Section Quantities.
Variable T : nat.
Variable i : inputs.
Variables clip_rho_threshold clip_pg_rho_threshold : option threshold.

Definition log_rhos (t b : nat) : R :=
  get (target_log_probs i) t b - get (behaviour_log_probs i) t b.

Definition rhos (t b : nat) : R := exp (log_rhos t b).

Definition clipped_rhos (t b : nat) : R :=
  clipped clip_rho_threshold (rhos t b).

Definition cs (t b : nat) : R := Rmin (rhos t b) 1.

(** A sequence shifted one step forward in time, with the bootstrap
    value appended at position [T - 1]. *)
Definition shifted (x : nat -> nat -> R) (t b : nat) : R :=
  if (S t <? T)%nat then x (S t) b else getv (bootstrap_value i) b.

Definition values_t_plus_1 : nat -> nat -> R := shifted (get (values i)).

Definition td (x_t_plus_1 : nat -> nat -> R) (t b : nat) : R :=
  get (rewards i) t b + get (discounts i) t b * x_t_plus_1 t b
  - get (values i) t b.

Definition deltas (t b : nat) : R :=
  clipped_rhos t b * td values_t_plus_1 t b.

(** [acc_t = deltas[t] + discounts[t] * cs[t] * acc_{t+1}], [acc_T = 0];
    [n] counts the steps from [t] to [T]. *)
Fixpoint acc_from (n t b : nat) : R :=
  match n with
  | O => 0
  | S n' =>
      deltas t b + get (discounts i) t b * cs t b * acc_from n' (S t) b
  end.

Definition acc (t b : nat) : R := acc_from (T - t) t b.

Definition vs (t b : nat) : R := acc t b + get (values i) t b.

Definition vs_t_plus_1 : nat -> nat -> R := shifted vs.

Definition clipped_pg_rhos (t b : nat) : R :=
  clipped clip_pg_rho_threshold (rhos t b).

Definition pg_advantages (t b : nat) : R :=
  clipped_pg_rhos t b * td vs_t_plus_1 t b.

(** The locals of the function, were they these tables. *)
Definition locals (B : nat) : Locals.t R :=
  Locals.mk (mat T B log_rhos) (mat T B rhos) (mat T B clipped_rhos)
    (mat T B cs) (mat T B values_t_plus_1) (mat T B deltas)
    (vec B (acc 0)) (mat T B acc) (mat T B vs) (mat T B vs_t_plus_1)
    (mat T B clipped_pg_rhos) (mat T B pg_advantages).
End Quantities.

(** The function applied to arrays given as lists. *)
Definition run_locals (i : inputs) (crt cpt : option threshold)
  : result (Locals.t R) :=
  from_importance_weights_locals
    (of_matrix (behaviour_log_probs i)) (of_matrix (target_log_probs i))
    (of_matrix (discounts i)) (of_matrix (rewards i))
    (of_matrix (values i)) (of_vector (bootstrap_value i)) crt cpt.

Definition run (i : inputs) (crt cpt : option threshold)
  : result (VTraceReturns R) :=
  from_importance_weights
    (of_matrix (behaviour_log_probs i)) (of_matrix (target_log_probs i))
    (of_matrix (discounts i)) (of_matrix (rewards i))
    (of_matrix (values i)) (of_vector (bootstrap_value i)) crt cpt.

Definition call_locals (i : inputs) (crt cpt : kwarg (option threshold))
  : result (Locals.t R) :=
  call_from_importance_weights_locals
    (of_matrix (behaviour_log_probs i)) (of_matrix (target_log_probs i))
    (of_matrix (discounts i)) (of_matrix (rewards i))
    (of_matrix (values i)) (of_vector (bootstrap_value i)) crt cpt.

End Spec.

(** ** The quantities of the algorithm in any arithmetic

    The same tables as in [Spec], with the operations of an arithmetic [N]
    in the place of those of the real numbers. *)

Module Table.
Section Table.
Variable N : arith.

Record inputs : Type := mkInputs {
  behaviour_log_probs : list (list (num N));
  target_log_probs : list (list (num N));
  discounts : list (list (num N));
  rewards : list (list (num N));
  values : list (list (num N));
  bootstrap_value : list (num N)
}.

Definition valid (T B : nat) (i : inputs) : Prop :=
  (1 <= T)%nat /\ (1 <= B)%nat /\
  is_matrix T B (behaviour_log_probs i) /\
  is_matrix T B (target_log_probs i) /\
  is_matrix T B (discounts i) /\
  is_matrix T B (rewards i) /\
  is_matrix T B (values i) /\
  length (bootstrap_value i) = B.

Definition getv (v : list (num N)) (b : nat) : num N := nth b v (n_zero N).
Definition get (m : list (list (num N))) (t b : nat) : num N :=
  nth b (nth t m []) (n_zero N).

Definition clipped (thr : option threshold) (x : num N) : num N :=
  match thr with
  | Some m => n_clip N m x
  | None => x
  end.

Variable T : nat.
Variable i : inputs.
Variables clip_rho_threshold clip_pg_rho_threshold : option threshold.

Definition log_rhos (t b : nat) : num N :=
  n_sub N (get (target_log_probs i) t b) (get (behaviour_log_probs i) t b).

Definition rhos (t b : nat) : num N := n_exp N (log_rhos t b).

Definition clipped_rhos (t b : nat) : num N :=
  clipped clip_rho_threshold (rhos t b).

Definition cs (t b : nat) : num N := n_clip N (Finite 1) (rhos t b).

Definition shifted (x : nat -> nat -> num N) (t b : nat) : num N :=
  if (S t <? T)%nat then x (S t) b else getv (bootstrap_value i) b.

Definition values_t_plus_1 : nat -> nat -> num N := shifted (get (values i)).

Definition td (x_t_plus_1 : nat -> nat -> num N) (t b : nat) : num N :=
  n_sub N
    (n_add N (get (rewards i) t b)
       (n_mul N (get (discounts i) t b) (x_t_plus_1 t b)))
    (get (values i) t b).

Definition deltas (t b : nat) : num N :=
  n_mul N (clipped_rhos t b) (td values_t_plus_1 t b).

Fixpoint acc_from (n t b : nat) : num N :=
  match n with
  | O => n_zero N
  | S n' =>
      n_add N (deltas t b)
        (n_mul N (n_mul N (get (discounts i) t b) (cs t b))
           (acc_from n' (S t) b))
  end.

Definition acc (t b : nat) : num N := acc_from (T - t) t b.

Definition vs (t b : nat) : num N := n_add N (acc t b) (get (values i) t b).

Definition vs_t_plus_1 : nat -> nat -> num N := shifted vs.

Definition clipped_pg_rhos (t b : nat) : num N :=
  clipped clip_pg_rho_threshold (rhos t b).

Definition pg_advantages (t b : nat) : num N :=
  n_mul N (clipped_pg_rhos t b) (td vs_t_plus_1 t b).

Definition locals (B : nat) : Locals.t (num N) :=
  Locals.mk (mat T B log_rhos) (mat T B rhos) (mat T B clipped_rhos)
    (mat T B cs) (mat T B values_t_plus_1) (mat T B deltas)
    (vec B (acc 0)) (mat T B acc) (mat T B vs) (mat T B vs_t_plus_1)
    (mat T B clipped_pg_rhos) (mat T B pg_advantages).

(** The function applied to arrays given as lists. *)
Definition run_locals : result (Locals.t (num N)) :=
  from_importance_weights_locals
    (of_matrix (behaviour_log_probs i)) (of_matrix (target_log_probs i))
    (of_matrix (discounts i)) (of_matrix (rewards i))
    (of_matrix (values i)) (of_vector (bootstrap_value i))
    clip_rho_threshold clip_pg_rho_threshold.

Definition run : result (VTraceReturns (num N)) :=
  from_importance_weights
    (of_matrix (behaviour_log_probs i)) (of_matrix (target_log_probs i))
    (of_matrix (discounts i)) (of_matrix (rewards i))
    (of_matrix (values i)) (of_vector (bootstrap_value i))
    clip_rho_threshold clip_pg_rho_threshold.

End Table.
End Table.

(** A trajectory of real numbers as an input of the exact arithmetic. *)
Definition as_table (i : Spec.inputs) : Table.inputs exact :=
  Table.mkInputs exact
    (Spec.behaviour_log_probs i) (Spec.target_log_probs i)
    (Spec.discounts i) (Spec.rewards i) (Spec.values i)
    (Spec.bootstrap_value i).

(** ** The contract of the call, as the specification words it *)

(** A clip threshold is absent or a positive scalar. *)
Definition positive_threshold (thr : option threshold) : Prop :=
  match thr with
  | Some (Finite c) => 0 < c
  | Some PosInf => True
  | None => True
  end.

(** The five arrays have one shape (hence one rank), [bootstrap_value] has
    the shape of their trailing dimensions (hence one rank less), and both
    thresholds are absent or positive. *)
Definition contract
    (behaviour_log_probs target_log_probs discounts rewards values
     bootstrap_value : tensor R)
    (clip_rho_threshold clip_pg_rho_threshold : option threshold) : Prop :=
  shape target_log_probs = shape behaviour_log_probs /\
  shape discounts = shape behaviour_log_probs /\
  shape rewards = shape behaviour_log_probs /\
  shape values = shape behaviour_log_probs /\
  (1 <= rank behaviour_log_probs)%nat /\
  shape bootstrap_value = tl (shape behaviour_log_probs) /\
  positive_threshold clip_rho_threshold /\
  positive_threshold clip_pg_rho_threshold.

(** What the assertions at the head of the function test. *)
Definition rank_mismatch
    (behaviour_log_probs target_log_probs discounts rewards values
     bootstrap_value : tensor R) : Prop :=
  rank target_log_probs <> rank behaviour_log_probs \/
  rank values <> rank behaviour_log_probs \/
  S (rank bootstrap_value) <> rank behaviour_log_probs \/
  rank discounts <> rank behaviour_log_probs \/
  rank rewards <> rank behaviour_log_probs.

(** A threshold that is absent, or at least 1. *)
Definition absent_or_at_least_1 (thr : option threshold) : Prop :=
  match thr with
  | Some (Finite c) => 1 <= c
  | Some PosInf => True
  | None => True
  end.

(** Two arrays agree at all time steps up to and including [t]. *)
Definition agree_upto {A : Type} (t : nat) (m1 m2 : list (list A)) : Prop :=
  firstn (S t) m1 = firstn (S t) m2.

Definition inputs_agree_upto {N : arith} (t : nat) (i1 i2 : Table.inputs N)
  : Prop :=
  agree_upto t (Table.behaviour_log_probs N i1)
               (Table.behaviour_log_probs N i2) /\
  agree_upto t (Table.target_log_probs N i1) (Table.target_log_probs N i2) /\
  agree_upto t (Table.discounts N i1) (Table.discounts N i2) /\
  agree_upto t (Table.rewards N i1) (Table.rewards N i2) /\
  agree_upto t (Table.values N i1) (Table.values N i2).

(** ** Float32 values that are numbers *)

(** Neither an infinity nor NaN. *)
Definition is_number (x : fnum) : Prop :=
  match x with
  | Num _ => True
  | _ => False
  end.

(** A finite float32: a number within the range. *)
Definition finite (x : fnum) : Prop :=
  match x with
  | Num r => - FLT_MAX <= r <= FLT_MAX
  | _ => False
  end.

(** A valid input all of whose entries are finite float32 numbers. *)
Definition finite_inputs (T B : nat) (i : Table.inputs f32) : Prop :=
  Table.valid f32 T B i /\
  Forall (Forall finite) (Table.behaviour_log_probs f32 i) /\
  Forall (Forall finite) (Table.target_log_probs f32 i) /\
  Forall (Forall finite) (Table.discounts f32 i) /\
  Forall (Forall finite) (Table.rewards f32 i) /\
  Forall (Forall finite) (Table.values f32 i) /\
  Forall finite (Table.bootstrap_value f32 i).

(** After step [t] of a call of length [T], on lane [b], what step [t]
    reads is a number: the value estimate one step ahead, and the
    accumulator of step [t + 1] when there is such a step. *)
Definition numbers_after (T : nat) (l : Locals.t fnum) (t b : nat) : Prop :=
  (exists v, entry (Locals.values_t_plus_1 l) t b = Ok (Num v)) /\
  ((S t < T)%nat ->
   exists a, entry (Locals.vs_minus_v_xs l) (S t) b = Ok (Num a)).

(** ** Sample trajectories *)

(** Two steps, two lanes; the target policy is likelier than the behaviour
    policy on lane 0 and they coincide on lane 1. *)
Definition sample : Spec.inputs :=
  Spec.mkInputs
    [[0; 0]; [0; 0]]          (* behaviour_log_probs *)
    [[1; 0]; [1; 0]]          (* target_log_probs *)
    [[1; 1]; [0; 1]]          (* discounts *)
    [[1; 2]; [3; 4]]          (* rewards *)
    [[5; 6]; [7; 8]]          (* values *)
    [9; 10].                  (* bootstrap_value *)

(** The single step of the specification's example. *)
Definition single_step (p gamma r v vb : R) : Spec.inputs :=
  Spec.mkInputs [[p]] [[p]] [[gamma]] [[r]] [[v]] [vb].

(** Four steps on one lane, the second of which ends an episode. *)
Definition episode_b : Spec.inputs :=
  Spec.mkInputs
    [[0]; [0]; [1]; [0]]
    [[1]; [0]; [0]; [2]]
    [[1]; [0]; [2]; [1]]
    [[1]; [2]; [30]; [1]]
    [[4]; [5]; [60]; [1]]
    [70].

(** Two steps on one lane; the importance ratio is [e] at step 0 and 1 at
    step 1, and the temporal-difference residuals are 1 and -3. *)
Definition clip_sample : Spec.inputs :=
  Spec.mkInputs
    [[0]; [0]]
    [[1]; [0]]
    [[1]; [0]]
    [[1]; [-3]]
    [[0]; [0]]
    [0].

(** ** Sample trajectories of float32 values *)

(** Three steps on one lane, the second of which ends an episode
    ([discounts[1] = 0]); every entry is small. *)
Definition boundary_calm : Table.inputs f32 :=
  Table.mkInputs f32
    [[Num 0]; [Num 0]; [Num 0]]       (* behaviour_log_probs *)
    [[Num 0]; [Num 0]; [Num 0]]       (* target_log_probs *)
    [[Num 1]; [Num 0]; [Num 0]]       (* discounts *)
    [[Num 1]; [Num 1]; [Num 1]]       (* rewards *)
    [[Num 0]; [Num 0]; [Num 0]]       (* values *)
    [Num 0].                          (* bootstrap_value *)

(** The same two first steps, followed by two other steps and another
    bootstrap value. *)
Definition boundary_longer : Table.inputs f32 :=
  Table.mkInputs f32
    [[Num 0]; [Num 0]; [Num 0]; [Num 0]]
    [[Num 0]; [Num 0]; [Num 0]; [Num 0]]
    [[Num 1]; [Num 0]; [Num 1]; [Num 1]]
    [[Num 1]; [Num 1]; [Num 5]; [Num 2]]
    [[Num 0]; [Num 0]; [Num 3]; [Num 4]]
    [Num 6].

(** The same two first steps, followed by a step whose log-probabilities
    differ by 200, so that its importance ratio overflows. *)
Definition boundary_overflow : Table.inputs f32 :=
  Table.mkInputs f32
    [[Num 0]; [Num 0]; [Num 0]]
    [[Num 0]; [Num 0]; [Num 200]]
    [[Num 1]; [Num 0]; [Num 0]]
    [[Num 1]; [Num 1]; [Num 1]]
    [[Num 0]; [Num 0]; [Num 0]]
    [Num 0].

(** A single step whose value estimate satisfies the one-step backup
    exactly, [1 + 1 * 1 - 2 = 0], and whose importance ratio overflows. *)
Definition fixed_point_overflow : Table.inputs f32 :=
  Table.mkInputs f32
    [[Num 0]] [[Num 200]] [[Num 1]] [[Num 1]] [[Num 2]] [Num 1].

(** A single step whose log-probabilities differ by -200, so that its
    importance ratio underflows. *)
Definition ratio_underflow : Table.inputs f32 :=
  Table.mkInputs f32
    [[Num 0]] [[Num (-200)]] [[Num 1]] [[Num 1]] [[Num 2]] [Num 1].

(** ** Trajectories derived from a trajectory *)

(** The trajectory from step [s] on: the first [s] rows of every array are
    dropped, the bootstrap value stays. *)
Definition suffix (s : nat) (i : Spec.inputs) : Spec.inputs :=
  Spec.mkInputs
    (skipn s (Spec.behaviour_log_probs i))
    (skipn s (Spec.target_log_probs i))
    (skipn s (Spec.discounts i))
    (skipn s (Spec.rewards i))
    (skipn s (Spec.values i))
    (Spec.bootstrap_value i).

(** Lane [b] alone, as a batch of size 1. *)
Definition column (b : nat) (m : matrix) : matrix :=
  map (fun row => [nth b row 0]) m.

Definition lane (b : nat) (i : Spec.inputs) : Spec.inputs :=
  Spec.mkInputs
    (column b (Spec.behaviour_log_probs i))
    (column b (Spec.target_log_probs i))
    (column b (Spec.discounts i))
    (column b (Spec.rewards i))
    (column b (Spec.values i))
    [getv (Spec.bootstrap_value i) b].

(** Rewards, value estimates and bootstrap values multiplied by [k]; the
    log-probabilities and the discounts are kept. *)
Definition scale_matrix (k : R) (m : matrix) : matrix :=
  map (map (Rmult k)) m.

Definition rescale (k : R) (i : Spec.inputs) : Spec.inputs :=
  Spec.mkInputs
    (Spec.behaviour_log_probs i)
    (Spec.target_log_probs i)
    (Spec.discounts i)
    (scale_matrix k (Spec.rewards i))
    (scale_matrix k (Spec.values i))
    (map (Rmult k) (Spec.bootstrap_value i)).

(** Arrays of rank 1, one entry per time step, with a scalar bootstrap
    value; and the same trajectory as a batch of size 1. *)
Record inputs1 : Type := mkInputs1 {
  behaviour_log_probs1 : vector;
  target_log_probs1 : vector;
  discounts1 : vector;
  rewards1 : vector;
  values1 : vector;
  bootstrap_value1 : R
}.

Definition valid1 (T : nat) (i : inputs1) : Prop :=
  (1 <= T)%nat /\
  length (behaviour_log_probs1 i) = T /\
  length (target_log_probs1 i) = T /\
  length (discounts1 i) = T /\
  length (rewards1 i) = T /\
  length (values1 i) = T.

Definition as_column (v : vector) : matrix := map (fun x => [x]) v.

Definition as_batch (i : inputs1) : Spec.inputs :=
  Spec.mkInputs
    (as_column (behaviour_log_probs1 i))
    (as_column (target_log_probs1 i))
    (as_column (discounts1 i))
    (as_column (rewards1 i))
    (as_column (values1 i))
    [bootstrap_value1 i].

Definition run1 (i : inputs1) (crt cpt : option threshold)
  : result (VTraceReturns R) :=
  from_importance_weights
    (of_vector (behaviour_log_probs1 i)) (of_vector (target_log_probs1 i))
    (of_vector (discounts1 i)) (of_vector (rewards1 i))
    (of_vector (values1 i)) (Scalar (bootstrap_value1 i)) crt cpt.

(** ** Kinds of failure *)

(** A result that is not a failed assertion: a value, or an error of a
    tensor operation. *)
Definition not_assertion {A : Type} (r : result A) : Prop :=
  match r with
  | Err AssertionError => False
  | _ => True
  end.

(** Induction on tensors, with the hypothesis for every item of a [Dim]. *)
Fixpoint tensor_induction {A : Type} (P : tensor A -> Prop)
    (HScalar : forall x, P (Scalar x))
    (HDim : forall inner items, Forall P items -> P (Dim inner items))
    (t : tensor A) : P t :=
  match t with
  | Scalar x => HScalar x
  | Dim inner items =>
      HDim inner items
        ((fix all (l : list (tensor A)) : Forall P l :=
            match l with
            | [] => Forall_nil P
            | x :: l' =>
                Forall_cons x (tensor_induction P HScalar HDim x) (all l')
            end) items)
  end.

(** Steps of a longer trajectory, for the examples below. *)
Definition sample1 : inputs1 :=
  mkInputs1 [0; 0] [1; 0] [1; 0] [1; 2] [4; 5] 7.

(** * Properties *)

(** ** Lists and tables *)

Lemma tabulate_length {A : Type} (n : nat) (f : nat -> A) :
  length (tabulate n f) = n.
Proof. unfold tabulate. now rewrite length_map, length_seq. Qed.

Lemma tabulate_ext {A : Type} (n : nat) (f g : nat -> A) :
  (forall k, (k < n)%nat -> f k = g k) -> tabulate n f = tabulate n g.
Proof.
  intros H. unfold tabulate. apply map_ext_in.
  intros k Hk. apply in_seq in Hk. apply H. lia.
Qed.

Lemma tabulate_nth {A : Type} (d : A) (l : list A) :
  l = tabulate (length l) (fun k => nth k l d).
Proof.
  apply (nth_ext _ _ d (nth 0 l d)).
  - now rewrite tabulate_length.
  - intros k Hk. unfold tabulate.
    rewrite (map_nth (fun k => nth k l d) (seq 0 (length l)) 0%nat k).
    now rewrite seq_nth.
Qed.

Lemma tabulate_S {A : Type} (n : nat) (f : nat -> A) :
  tabulate (S n) f = tabulate n f ++ [f n].
Proof. unfold tabulate. now rewrite seq_S, map_app. Qed.

Lemma tabulate_cons {A : Type} (n : nat) (f : nat -> A) :
  tabulate (S n) f = f 0%nat :: tabulate n (fun k => f (S k)).
Proof.
  unfold tabulate. cbn [seq map]. f_equal.
  now rewrite <- seq_shift, map_map.
Qed.

Lemma tabulate_nth_error {A : Type} (n k : nat) (f : nat -> A) :
  (k < n)%nat -> nth_error (tabulate n f) k = Some (f k).
Proof.
  intros Hk. unfold tabulate.
  rewrite nth_error_map, nth_error_seq.
  destruct (Nat.ltb_spec k n); [reflexivity | lia].
Qed.

Lemma Forall_tabulate {A : Type} (P : A -> Prop) (n : nat) (f : nat -> A) :
  (forall k, (k < n)%nat -> P (f k)) -> Forall P (tabulate n f).
Proof.
  intros H. apply Forall_forall. intros x Hx. unfold tabulate in Hx.
  apply in_map_iff in Hx. destruct Hx as [k [<- Hk]].
  apply in_seq in Hk. apply H. lia.
Qed.

Lemma zipM_map {I A B C : Type} (f : A -> B -> result C)
    (X : I -> A) (Y : I -> B) (Z : I -> C) (l : list I) :
  (forall k, In k l -> f (X k) (Y k) = Ok (Z k)) ->
  zipM f (map X l) (map Y l) = Ok (map Z l).
Proof.
  induction l as [| k l IH]; intros H; [reflexivity |].
  cbn [map zipM]. rewrite (H k) by now left. cbn [bind].
  rewrite IH by (intros; apply H; now right). reflexivity.
Qed.

Lemma broadcast_dims_refl (s : list nat) : zipM broadcast_dim s s = Ok s.
Proof.
  induction s as [| n s IH]; [reflexivity |].
  cbn [zipM]. unfold broadcast_dim at 1. rewrite Nat.eqb_refl. cbn [bind].
  now rewrite IH.
Qed.

Lemma shape_eqb_refl (s : list nat) : shape_eqb s s = true.
Proof. unfold shape_eqb. now destruct (list_eq_dec Nat.eq_dec s s). Qed.

Lemma shape_eqb_eq (s s' : list nat) : shape_eqb s s' = true <-> s = s'.
Proof.
  unfold shape_eqb. destruct (list_eq_dec Nat.eq_dec s s'); split; easy.
Qed.

(** ** Tensor operations on vectors and matrices *)

Section TensorFacts.
Context {A : Type}.
Implicit Types (g h : nat -> nat -> A) (f : A -> A -> A).

Lemma vec_ext (B : nat) (u v : nat -> A) :
  (forall b, (b < B)%nat -> u b = v b) -> vec B u = vec B v.
Proof. intros H. unfold vec. now rewrite (tabulate_ext B u v). Qed.

Lemma mat_ext (T B : nat) g h :
  (forall t b, (t < T)%nat -> (b < B)%nat -> g t b = h t b) ->
  mat T B g = mat T B h.
Proof.
  intros H. unfold mat. f_equal. apply tabulate_ext.
  intros t Ht. apply tabulate_ext. intros b Hb. now apply H.
Qed.

Lemma of_vector_nth (d : A) (v : list A) :
  of_vector v = vec (length v) (fun b => nth b v d).
Proof. unfold vec. now rewrite <- tabulate_nth. Qed.

Lemma of_matrix_nth (d : A) (T B : nat) (m : list (list A)) :
  is_matrix T B m ->
  of_matrix m = mat T B (fun t b => nth b (nth t m []) d).
Proof.
  intros [HT HB]. unfold mat. f_equal.
  rewrite (tabulate_nth [] m) at 1. rewrite HT.
  apply tabulate_ext. intros t Ht.
  assert (Hlen : length (nth t m []) = B).
  { rewrite Forall_forall in HB. apply HB, nth_In. lia. }
  rewrite (tabulate_nth d (nth t m [])) at 1. now rewrite Hlen.
Qed.

Lemma vec_items (B : nat) (u : nat -> A) :
  vec B u = Dim [] (tabulate B (fun b => Scalar (u b))).
Proof. unfold vec, of_vector, tabulate. now rewrite map_map. Qed.

Lemma mat_rows (T B : nat) g :
  mat T B g
  = Dim [match T with O => O | S _ => B end]
        (tabulate T (fun t => vec B (g t))).
Proof.
  unfold mat, of_matrix, vec. f_equal.
  - destruct T; [reflexivity |].
    rewrite tabulate_cons. cbn [width]. now rewrite tabulate_length.
  - unfold tabulate. now rewrite map_map.
Qed.

Lemma mat_rows_pos (T B : nat) g :
  (1 <= T)%nat -> mat T B g = Dim [B] (tabulate T (fun t => vec B (g t))).
Proof. intros HT. rewrite mat_rows. destruct T; [lia | reflexivity]. Qed.

Lemma shape_vec (B : nat) (u : nat -> A) : shape (vec B u) = [B].
Proof. rewrite vec_items. cbn [shape]. now rewrite tabulate_length. Qed.

Lemma shape_mat (T B : nat) g :
  (1 <= T)%nat -> shape (mat T B g) = [T; B].
Proof.
  intros HT. rewrite mat_rows_pos by exact HT. cbn [shape].
  now rewrite tabulate_length.
Qed.

Lemma rank_mat_eq (T B : nat) g h : rank (mat T B g) = rank (mat T B h).
Proof. now rewrite !mat_rows. Qed.

Lemma same_shapes_all (s : list nat) (l : list (tensor A)) :
  Forall (fun x => shape x = s) l -> same_shapes l = true.
Proof.
  intros H. destruct l as [| x l]; [reflexivity |].
  inversion H as [| ? ? Hx Hl]; subst. cbn [same_shapes].
  apply forallb_forall. intros y Hy. rewrite Forall_forall in Hl.
  rewrite (Hl y Hy). apply shape_eqb_refl.
Qed.

Lemma broadcast_map f (s : list nat) (X Y Z : nat -> tensor A)
    (l : list nat) :
  (forall k, In k l -> broadcast f (X k) (Y k) = Ok (Z k)) ->
  broadcast f (Dim s (map X l)) (Dim s (map Y l)) = Ok (Dim s (map Z l)).
Proof.
  intros H. cbn [broadcast]. rewrite broadcast_dims_refl. cbn [bind].
  destruct l as [| k [| k' l]].
  - reflexivity.
  - cbn [map mapM]. rewrite (H k) by now left. reflexivity.
  - rewrite (zipM_map (broadcast f) X Y Z) by exact H. reflexivity.
Qed.

Lemma broadcast_vec f (B : nat) (u v : nat -> A) :
  broadcast f (vec B u) (vec B v) = Ok (vec B (fun b => f (u b) (v b))).
Proof.
  rewrite !vec_items. unfold tabulate. now apply broadcast_map.
Qed.

Lemma broadcast_mat f (T B : nat) g h :
  broadcast f (mat T B g) (mat T B h)
  = Ok (mat T B (fun t b => f (g t b) (h t b))).
Proof.
  rewrite !mat_rows. unfold tabulate. apply broadcast_map.
  intros t _. apply broadcast_vec.
Qed.

Lemma binop_vec f (B : nat) (u v : nat -> A) :
  binop f (vec B u) (vec B v) = Ok (vec B (fun b => f (u b) (v b))).
Proof.
  unfold binop, rank. rewrite !shape_vec, Nat.sub_diag. apply broadcast_vec.
Qed.

Lemma binop_mat f (T B : nat) g h :
  binop f (mat T B g) (mat T B h)
  = Ok (mat T B (fun t b => f (g t b) (h t b))).
Proof.
  unfold binop. rewrite (rank_mat_eq T B g h), Nat.sub_diag.
  apply broadcast_mat.
Qed.

Lemma binop_scalar f (x y : A) :
  binop f (Scalar x) (Scalar y) = Ok (Scalar (f x y)).
Proof. reflexivity. Qed.

Lemma tmap_vec (k : A -> A) (B : nat) (u : nat -> A) :
  tmap k (vec B u) = vec B (fun b => k (u b)).
Proof.
  rewrite !vec_items. unfold tabulate. cbn [tmap]. now rewrite map_map.
Qed.

Lemma tmap_mat (k : A -> A) (T B : nat) g :
  tmap k (mat T B g) = mat T B (fun t b => k (g t b)).
Proof.
  rewrite !mat_rows. unfold tabulate. cbn [tmap]. rewrite map_map.
  f_equal. apply map_ext. intros t. apply tmap_vec.
Qed.

Lemma tindex_mat (T B : nat) g (t : nat) :
  (t < T)%nat -> tindex (mat T B g) t = Ok (vec B (g t)).
Proof.
  intros Ht. rewrite mat_rows. cbn [tindex].
  now rewrite tabulate_nth_error.
Qed.

Lemma tindex_vec (B : nat) (u : nat -> A) (b : nat) :
  (b < B)%nat -> tindex (vec B u) b = Ok (Scalar (u b)).
Proof.
  intros Hb. rewrite vec_items. cbn [tindex].
  now rewrite tabulate_nth_error.
Qed.

Lemma entry_mat (T B : nat) g (t b : nat) :
  (t < T)%nat -> (b < B)%nat -> entry (mat T B g) t b = Ok (g t b).
Proof.
  intros Ht Hb. unfold entry, entry1.
  rewrite tindex_mat by exact Ht. cbn [bind].
  rewrite tindex_vec by exact Hb. reflexivity.
Qed.

Lemma shape0_mat (T B : nat) g : shape0 (mat T B g) = Ok T.
Proof.
  rewrite mat_rows. unfold shape0. cbn [shape].
  now rewrite tabulate_length.
Qed.

Lemma stack_rows (T B : nat) g :
  (1 <= T)%nat ->
  stack (tabulate T (fun t => vec B (g t))) = Ok (mat T B g).
Proof.
  intros HT. rewrite mat_rows_pos by exact HT. unfold stack.
  rewrite (same_shapes_all [B]).
  - destruct T; [lia |]. unfold tabulate at 1. cbn [seq map].
    now rewrite shape_vec.
  - apply Forall_tabulate. intros. apply shape_vec.
Qed.

Lemma slice_mat (T B : nat) g :
  (1 <= T)%nat ->
  slice_from_1 (mat T B g)
  = Ok (Dim [B] (tl (tabulate T (fun t => vec B (g t))))).
Proof. intros HT. now rewrite mat_rows_pos by exact HT. Qed.

(** [x[1:]] followed by the bootstrap row is the table shifted by one. *)
Lemma concat_shift (T B : nat) g (boot : nat -> A) :
  (1 <= T)%nat ->
  concat (Dim [B] (tl (tabulate T (fun t => vec B (g t)))))
    (unsqueeze (vec B boot))
  = Ok (mat T B (fun t b => if (S t <? T)%nat then g (S t) b else boot b)).
Proof.
  intros HT. rewrite mat_rows_pos by exact HT. destruct T as [| n]; [lia |].
  rewrite tabulate_cons. cbn [tl]. unfold concat, unsqueeze.
  rewrite shape_vec, shape_eqb_refl. do 2 f_equal.
  rewrite tabulate_S. f_equal.
  - apply tabulate_ext. intros k Hk.
    destruct (Nat.ltb_spec (S k) (S n)); [reflexivity | lia].
  - now rewrite Nat.ltb_irrefl.
Qed.

End TensorFacts.

Lemma of_vector_vec (v : vector) : of_vector v = vec (length v) (getv v).
Proof. apply of_vector_nth. Qed.

Lemma of_matrix_mat (T B : nat) (m : matrix) :
  is_matrix T B m -> of_matrix m = mat T B (get m).
Proof. apply of_matrix_nth. Qed.

(** ** The function computes the tables, in any arithmetic *)

Lemma range_down_S (k : nat) : range_down (S k) = k :: range_down k.
Proof. unfold range_down. now rewrite seq_S, rev_app_distr. Qed.

Section TableRefinement.
Variable N : arith.
Variables T B : nat.
Variable i : Table.inputs N.
Variables crt cpt : option threshold.

Lemma table_acc_step (t b : nat) :
  (t < T)%nat ->
  Table.acc N T i crt t b
  = n_add N (Table.deltas N T i crt t b)
      (n_mul N (n_mul N (Table.get N (Table.discounts N i) t b)
                  (Table.cs N i t b))
         (Table.acc N T i crt (S t) b)).
Proof.
  intros Ht. unfold Table.acc.
  replace (T - t)%nat with (S (T - S t)) by lia. reflexivity.
Qed.

Lemma table_acc_end (t b : nat) :
  (T <= t)%nat -> Table.acc N T i crt t b = n_zero N.
Proof.
  intros Ht. unfold Table.acc.
  replace (T - t)%nat with 0%nat by lia. reflexivity.
Qed.

Lemma clip_option_table (thr : option threshold)
    (g : nat -> nat -> num N) :
  match thr with
  | Some m => clip (mat T B g) m
  | None => mat T B g
  end = mat T B (fun t b => Table.clipped N thr (g t b)).
Proof. destruct thr; [apply tmap_mat | reflexivity]. Qed.

Lemma loop_body_table (k : nat) (res : list (tensor (num N))) :
  (k < T)%nat ->
  loop_body (mat T B (Table.deltas N T i crt))
    (mat T B (Table.get N (Table.discounts N i)))
    (mat T B (Table.cs N i)) k (vec B (Table.acc N T i crt (S k)), res)
  = Ok (vec B (Table.acc N T i crt k),
        res ++ [vec B (Table.acc N T i crt k)]).
Proof.
  intros Hk. unfold loop_body, tmul, tadd.
  rewrite !tindex_mat by exact Hk. cbn [bind].
  rewrite binop_vec. cbn [bind]. rewrite binop_vec. cbn [bind].
  rewrite binop_vec. cbn [bind].
  rewrite (vec_ext B _ (Table.acc N T i crt k)); [reflexivity |].
  intros b _. now rewrite (table_acc_step k b Hk).
Qed.

Lemma for_loop_table (k : nat) (res : list (tensor (num N))) :
  (k <= T)%nat ->
  for_loop (mat T B (Table.deltas N T i crt))
    (mat T B (Table.get N (Table.discounts N i)))
    (mat T B (Table.cs N i)) (range_down k)
    (vec B (Table.acc N T i crt k), res)
  = Ok (vec B (Table.acc N T i crt 0),
        res ++ rev (tabulate k (fun t => vec B (Table.acc N T i crt t)))).
Proof.
  revert res. induction k as [| k IH]; intros res Hk.
  - unfold range_down, tabulate. cbn [seq rev map for_loop].
    now rewrite app_nil_r.
  - rewrite range_down_S. cbn [for_loop].
    rewrite loop_body_table by lia. cbn [bind].
    rewrite IH by lia. rewrite tabulate_S, rev_app_distr, <- app_assoc.
    reflexivity.
Qed.

Hypothesis Hvalid : Table.valid N T B i.

Lemma run_locals_table :
  Table.run_locals N i crt cpt = Ok (Table.locals N T i crt cpt B).
Proof.
  destruct Hvalid as (HT & HB & Hb & Ht & Hd & Hr & Hv & Hboot).
  unfold Table.run_locals, from_importance_weights_locals.
  rewrite (of_matrix_nth (n_zero N) T B _ Hb),
    (of_matrix_nth (n_zero N) T B _ Ht),
    (of_matrix_nth (n_zero N) T B _ Hd),
    (of_matrix_nth (n_zero N) T B _ Hr),
    (of_matrix_nth (n_zero N) T B _ Hv),
    (of_vector_nth (n_zero N)), Hboot.
  unfold rank_is, rank. rewrite !shape_mat, shape_vec by exact HT.
  cbn [length assert Z.eqb Z.of_nat Pos.of_succ_nat Pos.succ Z.sub Z.add
       Z.opp Z.pos_sub Pos.pred_double Pos.eqb bind].
  unfold tsub, tmul, tadd, texp.
  rewrite binop_mat. cbn [bind]. rewrite tmap_mat.
  rewrite !clip_option_table. unfold clip. rewrite tmap_mat.
  rewrite slice_mat by exact HT. cbn [bind].
  rewrite concat_shift by exact HT.
  cbn [bind]. rewrite binop_mat. cbn [bind]. rewrite binop_mat. cbn [bind].
  rewrite binop_mat. cbn [bind]. rewrite binop_mat. cbn [bind].
  rewrite shape0_mat. cbn [bind].
  unfold zeros_like. rewrite tmap_vec.
  pose proof (for_loop_table T [] (le_n T)) as Hloop.
  rewrite (vec_ext B (Table.acc N T i crt T) (fun _ => n_zero N)) in Hloop
    by (intros; now apply table_acc_end).
  match type of Hloop with
  | ?lhs = _ =>
      match goal with
      | |- context [for_loop ?d ?g ?c ?ts ?st] =>
          change (for_loop d g c ts st) with lhs
      end
  end.
  rewrite Hloop. cbn [bind app]. rewrite rev_involutive.
  rewrite stack_rows by exact HT. cbn [bind].
  rewrite binop_mat. cbn [bind].
  rewrite slice_mat by exact HT. cbn [bind].
  rewrite concat_shift by exact HT.
  cbn [bind]. rewrite binop_mat. cbn [bind]. rewrite binop_mat. cbn [bind].
  rewrite binop_mat. cbn [bind]. rewrite binop_mat. cbn [bind].
  reflexivity.
Qed.

Corollary run_table :
  Table.run N i crt cpt
  = Ok (mkVTraceReturns (mat T B (Table.vs N T i crt))
          (mat T B (Table.pg_advantages N T i crt cpt))).
Proof.
  unfold Table.run, from_importance_weights.
  fold (Table.run_locals N i crt cpt). now rewrite run_locals_table.
Qed.
End TableRefinement.

(** ** The function computes the specification's tables *)

Section Refinement.
Variables T B : nat.
Variable i : Spec.inputs.
Variables crt cpt : option threshold.

Lemma acc_step (t b : nat) :
  (t < T)%nat ->
  Spec.acc T i crt t b
  = Spec.deltas T i crt t b
    + get (Spec.discounts i) t b * Spec.cs i t b * Spec.acc T i crt (S t) b.
Proof.
  intros Ht. unfold Spec.acc.
  replace (T - t)%nat with (S (T - S t)) by lia. reflexivity.
Qed.

Lemma acc_end (t b : nat) : (T <= t)%nat -> Spec.acc T i crt t b = 0.
Proof.
  intros Ht. unfold Spec.acc.
  replace (T - t)%nat with 0%nat by lia. reflexivity.
Qed.

Hypothesis Hvalid : Spec.valid T B i.

(** In the exact arithmetic the tables of [Table] are those of [Spec]. *)
Lemma run_locals_spec :
  Spec.run_locals i crt cpt = Ok (Spec.locals T i crt cpt B).
Proof. exact (run_locals_table exact T B (as_table i) crt cpt Hvalid). Qed.

Corollary run_spec :
  Spec.run i crt cpt
  = Ok (mkVTraceReturns (mat T B (Spec.vs T i crt))
          (mat T B (Spec.pg_advantages T i crt cpt))).
Proof.
  unfold Spec.run, from_importance_weights.
  fold (Spec.run_locals i crt cpt). now rewrite run_locals_spec.
Qed.
End Refinement.

(** ** Validity of concrete inputs *)

Ltac valid_by_computation :=
  unfold Spec.valid, is_matrix; cbn;
  repeat match goal with
         | |- _ /\ _ => split
         | |- Forall _ _ => constructor
         end;
  try reflexivity; try lia.

(** ** The value targets *)

(** C1.  For every valid input the call returns, and [vs] is the [T, B]
    table [values + acc], where [acc] obeys the backward recurrence
    [acc_t = deltas[t] + discounts[t] * cs[t] * acc_{t+1}] with [acc_T = 0],
    [deltas[t] = clipped_rhos[t] * (rewards[t] + discounts[t] *
    values_t_plus_1[t] - values[t])], [values_t_plus_1] is [values] shifted
    one step with [bootstrap_value] at position [T - 1], and [clipped_rhos]
    is [exp (target - behaviour)] clipped from above at [clip_rho_threshold]
    when it is present. *)
Theorem C1_vs_backward_recurrence
    (T B : nat) (i : Spec.inputs) (crt cpt : option threshold) :
  Spec.valid T B i ->
  let acc := Spec.acc T i crt in
  let deltas := Spec.deltas T i crt in
  (exists ret,
     Spec.run i crt cpt = Ok ret /\
     vs ret = mat T B (fun t b => get (Spec.values i) t b + acc t b)) /\
  (forall t b, (t < T)%nat ->
     acc t b = deltas t b + get (Spec.discounts i) t b * Spec.cs i t b
                            * acc (S t) b) /\
  (forall b, acc T b = 0) /\
  (forall t b,
     deltas t b
     = Spec.clipped crt
         (exp (get (Spec.target_log_probs i) t b
               - get (Spec.behaviour_log_probs i) t b))
       * (get (Spec.rewards i) t b
          + get (Spec.discounts i) t b
            * (if (S t <? T)%nat then get (Spec.values i) (S t) b
               else getv (Spec.bootstrap_value i) b)
          - get (Spec.values i) t b)) /\
  (forall t b,
     Spec.cs i t b
     = Rmin (exp (get (Spec.target_log_probs i) t b
                  - get (Spec.behaviour_log_probs i) t b)) 1).
Proof.
  intros Hvalid acc deltas. repeat split.
  - eexists. split; [apply (run_spec T B i crt cpt Hvalid) |].
    cbn [vs]. apply mat_ext. intros t b _ _. unfold Spec.vs. apply Rplus_comm.
  - intros t b Ht. now apply acc_step.
  - intros b. now apply acc_end.
Qed.

Lemma C1_witness :
  exists ret,
    Spec.run sample (Some (Finite 1)) None = Ok ret /\
    vs ret = mat 2 2 (fun t b => get (Spec.values sample) t b
                                 + Spec.acc 2 sample (Some (Finite 1)) t b).
Proof.
  refine (proj1 (C1_vs_backward_recurrence 2 2 sample (Some (Finite 1)) None _)).
  valid_by_computation.
Defined.

(** ** The policy-gradient advantages *)

(** C2.  For every valid input the call returns, and at every step [t] and
    lane [b] the entry of [pg_advantages] is [clipped_pg_rhos * (rewards +
    discounts * vs_t_plus_1 - values)], where [vs_t_plus_1[t]] is the
    returned [vs] at step [t + 1], or [bootstrap_value] at the last step,
    and [clipped_pg_rhos] is [rhos] clipped from above at
    [clip_pg_rho_threshold] when it is present, whatever
    [clip_rho_threshold] is. *)
Theorem C2_pg_advantages
    (T B : nat) (i : Spec.inputs) (crt cpt : option threshold) :
  Spec.valid T B i ->
  exists ret,
    Spec.run i crt cpt = Ok ret /\
    shape (pg_advantages ret) = [T; B] /\
    forall t b, (t < T)%nat -> (b < B)%nat ->
      exists vs_next,
        (if (S t <? T)%nat then entry (vs ret) (S t) b
         else entry1 (of_vector (Spec.bootstrap_value i)) b) = Ok vs_next /\
        entry (pg_advantages ret) t b
        = Ok (Spec.clipped cpt
                (exp (get (Spec.target_log_probs i) t b
                      - get (Spec.behaviour_log_probs i) t b))
              * (get (Spec.rewards i) t b
                 + get (Spec.discounts i) t b * vs_next
                 - get (Spec.values i) t b)).
Proof.
  intros Hvalid. eexists. split; [apply (run_spec T B i crt cpt Hvalid) |].
  cbn [vs pg_advantages].
  destruct Hvalid as (HT & _ & _ & _ & _ & _ & _ & Hboot).
  split; [now apply shape_mat |].
  intros t b Ht Hb. exists (Spec.vs_t_plus_1 T i crt t b). split.
  - unfold Spec.vs_t_plus_1, Spec.shifted.
    destruct (Nat.ltb_spec (S t) T) as [Hlt | Hge].
    + now apply entry_mat.
    + rewrite of_vector_vec, Hboot. unfold entry1.
      rewrite tindex_vec by exact Hb. reflexivity.
  - now rewrite entry_mat.
Qed.

Lemma C2_witness :
  exists ret,
    Spec.run sample (Some (Finite 1)) (Some (Finite 2)) = Ok ret /\
    shape (pg_advantages ret) = [2; 2]%nat /\
    forall t b, (t < 2)%nat -> (b < 2)%nat ->
      exists vs_next,
        (if (S t <? 2)%nat then entry (vs ret) (S t) b
         else entry1 (of_vector (Spec.bootstrap_value sample)) b)
        = Ok vs_next /\
        entry (pg_advantages ret) t b
        = Ok (Spec.clipped (Some (Finite 2))
                (exp (get (Spec.target_log_probs sample) t b
                      - get (Spec.behaviour_log_probs sample) t b))
              * (get (Spec.rewards sample) t b
                 + get (Spec.discounts sample) t b * vs_next
                 - get (Spec.values sample) t b)).
Proof.
  apply (C2_pg_advantages 2 2 sample (Some (Finite 1)) (Some (Finite 2))).
  valid_by_computation.
Defined.

(** ** The trace-cutting coefficients *)

(** C3.  For every valid input there is one table, [min(rhos, 1.0)] entry by
    entry, that is the local [cs] of the call under every setting of
    [clip_rho_threshold] and [clip_pg_rho_threshold], present or absent. *)
Theorem C3_cs_is_min_rhos_1 (T B : nat) (i : Spec.inputs) :
  Spec.valid T B i ->
  forall crt cpt : option threshold,
  exists l,
    Spec.run_locals i crt cpt = Ok l /\
    Locals.rhos l
    = mat T B (fun t b => exp (get (Spec.target_log_probs i) t b
                               - get (Spec.behaviour_log_probs i) t b)) /\
    Locals.cs l
    = mat T B (fun t b => Rmin (exp (get (Spec.target_log_probs i) t b
                                     - get (Spec.behaviour_log_probs i) t b))
                               1).
Proof.
  intros Hvalid crt cpt. eexists.
  split; [apply (run_locals_spec T B i crt cpt Hvalid) |].
  split; reflexivity.
Qed.

Lemma C3_witness :
  exists l l',
    Spec.run_locals sample (Some (Finite 2)) None = Ok l /\
    Spec.run_locals sample None (Some (Finite 3)) = Ok l' /\
    Locals.cs l = Locals.cs l' /\
    Locals.cs l
    = mat 2 2 (fun t b =>
                 Rmin (exp (get (Spec.target_log_probs sample) t b
                            - get (Spec.behaviour_log_probs sample) t b)) 1).
Proof.
  assert (Hv : Spec.valid 2 2 sample) by valid_by_computation.
  destruct (C3_cs_is_min_rhos_1 2 2 sample Hv (Some (Finite 2)) None)
    as (l & Hl & _ & Hcs).
  destruct (C3_cs_is_min_rhos_1 2 2 sample Hv None (Some (Finite 3)))
    as (l' & Hl' & _ & Hcs').
  exists l, l'. repeat split; try assumption. now rewrite Hcs, Hcs'.
Defined.

(** ** Default thresholds *)

(** C5.  A call that omits both thresholds runs with both equal to 1.0, not
    with both absent: on every valid input [clipped_rhos],
    [clipped_pg_rhos] and [cs] are all the table [min(rhos, 1.0)].  Passing
    [None] for both leaves [clipped_rhos] and [clipped_pg_rhos] equal to
    [rhos], which differs from the default wherever [rhos] exceeds 1. *)
Theorem C5_default_thresholds (T B : nat) (i : Spec.inputs) :
  Spec.valid T B i ->
  let rho t b := exp (get (Spec.target_log_probs i) t b
                      - get (Spec.behaviour_log_probs i) t b) in
  Spec.call_locals i Omitted Omitted
  = Spec.run_locals i (Some (Finite 1)) (Some (Finite 1)) /\
  exists l_default l_none,
    Spec.call_locals i Omitted Omitted = Ok l_default /\
    Spec.call_locals i (Given None) (Given None) = Ok l_none /\
    Locals.clipped_rhos l_default = mat T B (fun t b => Rmin (rho t b) 1) /\
    Locals.clipped_pg_rhos l_default = mat T B (fun t b => Rmin (rho t b) 1) /\
    Locals.cs l_default = mat T B (fun t b => Rmin (rho t b) 1) /\
    Locals.clipped_rhos l_none = mat T B rho /\
    Locals.clipped_pg_rhos l_none = mat T B rho /\
    forall t b, (t < T)%nat -> (b < B)%nat -> 1 < rho t b ->
      entry (Locals.clipped_rhos l_default) t b = Ok 1 /\
      entry (Locals.clipped_rhos l_none) t b = Ok (rho t b) /\
      entry (Locals.clipped_pg_rhos l_default) t b = Ok 1 /\
      entry (Locals.clipped_pg_rhos l_none) t b = Ok (rho t b).
Proof.
  intros Hvalid rho. split; [reflexivity |]. do 2 eexists.
  split; [apply (run_locals_spec T B i (Some (Finite 1)) (Some (Finite 1))
                   Hvalid) |].
  split; [apply (run_locals_spec T B i None None Hvalid) |].
  do 5 (split; [reflexivity |]).
  intros t b Ht Hb Hrho. cbn [Spec.locals Locals.clipped_rhos
                                Locals.clipped_pg_rhos].
  rewrite !entry_mat by assumption.
  unfold Spec.clipped_rhos, Spec.clipped_pg_rhos, Spec.clipped, clip_max,
    Spec.rhos, Spec.log_rhos.
  fold (rho t b). rewrite Rmin_right by lra. repeat split.
Qed.

Lemma exp_1_gt_2 : 2 < exp 1.
Proof. pose proof (exp_ineq1 1). lra. Qed.

Lemma C5_witness :
  exists l_default l_none,
    Spec.call_locals sample Omitted Omitted = Ok l_default /\
    Spec.call_locals sample (Given None) (Given None) = Ok l_none /\
    entry (Locals.clipped_rhos l_default) 0 0 = Ok 1 /\
    entry (Locals.clipped_rhos l_none) 0 0 = Ok (exp (1 - 0)).
Proof.
  assert (Hv : Spec.valid 2 2 sample) by valid_by_computation.
  destruct (C5_default_thresholds 2 2 sample Hv)
    as (_ & ld & ln & Hd & Hn & _ & _ & _ & _ & _ & Hdiff).
  exists ld, ln. split; [exact Hd |]. split; [exact Hn |].
  assert (Hrho : 1 < exp (get (Spec.target_log_probs sample) 0 0
                          - get (Spec.behaviour_log_probs sample) 0 0)).
  { cbn. replace (1 - 0) with 1 by lra. pose proof exp_1_gt_2. lra. }
  destruct (Hdiff 0%nat 0%nat ltac:(lia) ltac:(lia) Hrho) as (H1 & H2 & _).
  split; [exact H1 | exact H2].
Defined.

(** ** Float32 arithmetic *)

Lemma FLT_MAX_pos : 0 < FLT_MAX.
Proof. unfold FLT_MAX. lra. Qed.

Lemma FLT_TINY_small : 0 < FLT_TINY < 1.
Proof. unfold FLT_TINY. lra. Qed.

Lemma round_range_num (r : R) :
  - FLT_MAX <= r <= FLT_MAX -> round_range r = Num r.
Proof.
  intros H. unfold round_range.
  destruct (Rlt_dec FLT_MAX r); [lra |].
  destruct (Rlt_dec r (- FLT_MAX)); [lra | reflexivity].
Qed.

Lemma round_range_value (r v : R) :
  r = v -> - FLT_MAX <= v <= FLT_MAX -> round_range r = Num v.
Proof. intros ->. apply round_range_num. Qed.

Lemma round_range_0 (r : R) : r = 0 -> round_range r = Num 0.
Proof.
  intros H. apply round_range_value; [exact H |].
  pose proof FLT_MAX_pos. lra.
Qed.

Lemma round_range_float (r : R) :
  match round_range r with
  | Num x => - FLT_MAX <= x <= FLT_MAX
  | _ => True
  end.
Proof.
  unfold round_range.
  destruct (Rlt_dec FLT_MAX r); [exact I |].
  destruct (Rlt_dec r (- FLT_MAX)); [exact I | lra].
Qed.

Lemma inf_times_0 (negative : bool) : inf_times negative 0 = NaN.
Proof.
  unfold inf_times.
  destruct (Rlt_dec 0 0); [lra |]. destruct (Rlt_dec 0 0); [lra | reflexivity].
Qed.

Lemma fmul_0_num (a : R) : fmul (Num 0) (Num a) = Num 0.
Proof. cbn [fmul]. apply round_range_0. ring. Qed.

Lemma fmul_num_0 (a : R) : fmul (Num a) (Num 0) = Num 0.
Proof. cbn [fmul]. apply round_range_0. ring. Qed.

(** Zero times anything, times a number, does not depend on the number. *)
Lemma fmul_0_any_num (x : fnum) (a1 a2 : R) :
  fmul (fmul (Num 0) x) (Num a1) = fmul (fmul (Num 0) x) (Num a2).
Proof.
  destruct x as [c | | |].
  - now rewrite !fmul_0_num.
  - cbn [fmul]. now rewrite inf_times_0.
  - cbn [fmul]. now rewrite inf_times_0.
  - reflexivity.
Qed.

Lemma exp_nat_lower (n : nat) : 2 ^ n <= exp (INR n).
Proof.
  induction n as [| n IH].
  - cbn. rewrite exp_0. lra.
  - rewrite S_INR, exp_plus. cbn [pow].
    pose proof (exp_ineq1 1 ltac:(lra)) as H1.
    pose proof (pow_lt 2 n ltac:(lra)) as H2.
    rewrite Rmult_comm. apply Rmult_le_compat; lra.
Qed.

Lemma exp_200_lower : 2 ^ 200 <= exp 200.
Proof.
  replace (exp 200) with (exp (INR 200))
    by (now rewrite INR_IZR_INZ).
  apply (exp_nat_lower 200).
Qed.

Lemma exp_200_overflows : FLT_MAX < exp 200.
Proof.
  apply Rlt_le_trans with (2 ^ 200); [| apply exp_200_lower].
  unfold FLT_MAX. rewrite (pow_IZR 2 200). apply IZR_lt. reflexivity.
Qed.

Lemma exp_minus_200_underflows : exp (- 200) < FLT_TINY.
Proof.
  replace (- 200) with (- (200)) by lra.
  rewrite exp_Ropp. unfold FLT_TINY.
  assert (H : 1427247692705959881058285969449495136382746624 < exp 200).
  { apply Rlt_le_trans with (2 ^ 200); [| apply exp_200_lower].
    rewrite (pow_IZR 2 200). apply IZR_lt. reflexivity. }
  apply Rinv_lt_contravar; [| exact H].
  apply Rmult_lt_0_compat; [lra | apply exp_pos].
Qed.

Lemma fexp_0 : fexp (Num 0) = Num 1.
Proof.
  cbn [fexp]. rewrite exp_0. pose proof FLT_TINY_small.
  destruct (Rlt_dec FLT_MAX 1); [unfold FLT_MAX in *; lra |].
  destruct (Rlt_dec 1 FLT_TINY); [lra | reflexivity].
Qed.

Lemma fexp_200 : fexp (Num 200) = PInf.
Proof.
  cbn [fexp]. pose proof exp_200_overflows.
  destruct (Rlt_dec FLT_MAX (exp 200)); [reflexivity | lra].
Qed.

Lemma fexp_minus_200 : fexp (Num (- 200)) = Num 0.
Proof.
  cbn [fexp]. pose proof exp_minus_200_underflows.
  pose proof (exp_pos (- 200)). pose proof FLT_MAX_pos.
  pose proof FLT_TINY_small.
  destruct (Rlt_dec FLT_MAX (exp (- 200))); [unfold FLT_MAX in *; lra |].
  destruct (Rlt_dec (exp (- 200)) FLT_TINY); [reflexivity | lra].
Qed.

(** The operations of [f32], by their names. *)
Ltac f32_ops :=
  cbn [num n_zero n_add n_sub n_mul n_exp n_clip f32] in *.

(** ** Evaluating float32 expressions *)

Lemma fadd_num (a b : R) : fadd (Num a) (Num b) = round_range (a + b).
Proof. reflexivity. Qed.

Lemma fsub_num (a b : R) : fsub (Num a) (Num b) = round_range (a - b).
Proof. reflexivity. Qed.

Lemma fmul_num (a b : R) : fmul (Num a) (Num b) = round_range (a * b).
Proof. reflexivity. Qed.

Lemma fadd_nan_l (x : fnum) : fadd NaN x = NaN.
Proof. reflexivity. Qed.

Lemma fadd_nan_r (x : fnum) : fadd x NaN = NaN.
Proof. now destruct x. Qed.

Lemma fsub_nan_l (x : fnum) : fsub NaN x = NaN.
Proof. reflexivity. Qed.

Lemma fmul_nan_l (x : fnum) : fmul NaN x = NaN.
Proof. reflexivity. Qed.

Lemma fmul_nan_r (x : fnum) : fmul x NaN = NaN.
Proof. now destruct x. Qed.

Lemma fadd_pinf_num (a : R) : fadd PInf (Num a) = PInf.
Proof. reflexivity. Qed.

Lemma fmul_pinf_num (a : R) : fmul PInf (Num a) = inf_times false a.
Proof. reflexivity. Qed.

Lemma fmul_num_pinf (a : R) : fmul (Num a) PInf = inf_times false a.
Proof. reflexivity. Qed.

Lemma inf_times_pos (negative : bool) (r : R) :
  0 < r -> inf_times negative r = inf_of negative.
Proof.
  intros H. unfold inf_times.
  destruct (Rlt_dec 0 r); [reflexivity | lra].
Qed.

Lemma fclip_num (m : threshold) (r : R) :
  - FLT_MAX <= r -> fclip m (Num r) = Num (clip_max m r).
Proof.
  intros H. cbn [fclip]. destruct (Rlt_dec r (- FLT_MAX)); [lra |].
  destruct m as [c |]; cbn [clip_max]; [| reflexivity].
  unfold Rmin.
  destruct (Rlt_dec c r), (Rle_dec r c); try reflexivity; try lra;
    f_equal; lra.
Qed.

Lemma fclip_pinf (c : R) : fclip (Finite c) PInf = Num c.
Proof. reflexivity. Qed.

Lemma fclip_nan (m : threshold) : fclip m NaN = NaN.
Proof. reflexivity. Qed.

(** The entries of the tables of a concrete input, unfolded down to the
    float32 operations on its entries. *)
Ltac f32_table :=
  unfold Table.vs, Table.pg_advantages, Table.vs_t_plus_1, Table.acc,
    Table.clipped_pg_rhos, Table.clipped_rhos;
  cbn [Nat.sub Table.acc_from];
  unfold Table.deltas, Table.cs, Table.td, Table.clipped_rhos, Table.clipped,
    Table.rhos, Table.log_rhos, Table.values_t_plus_1, Table.shifted,
    Table.vs, Table.acc;
  cbn [Nat.sub Table.acc_from Nat.ltb Nat.leb];
  unfold Table.deltas, Table.cs, Table.td, Table.clipped_rhos, Table.clipped,
    Table.rhos, Table.log_rhos, Table.values_t_plus_1, Table.shifted,
    Table.get, Table.getv;
  cbn [num n_zero n_add n_sub n_mul n_exp n_clip f32 nth inf_of
       Table.behaviour_log_probs Table.target_log_probs Table.discounts
       Table.rewards Table.values Table.bootstrap_value].

(** One round of evaluation: operations on numbers become roundings of
    real expressions, which are normalised and, within the range,
    returned. *)
Ltac f32_step :=
  first
    [ progress rewrite ?fadd_num, ?fsub_num, ?fmul_num, ?fadd_nan_l,
        ?fadd_nan_r, ?fsub_nan_l, ?fmul_nan_l, ?fmul_nan_r, ?fadd_pinf_num,
        ?fmul_pinf_num, ?fmul_num_pinf, ?fclip_pinf, ?fclip_nan,
        ?fexp_0, ?fexp_200, ?fexp_minus_200, ?inf_times_0
    | match goal with
      | |- context [round_range ?r] => progress ring_simplify r
      end
    | progress rewrite ?round_range_num by (unfold FLT_MAX; lra)
    | progress rewrite ?inf_times_pos by lra
    | progress rewrite ?fclip_num by (unfold FLT_MAX; lra)
    | progress cbn [clip_max inf_of]
    | progress rewrite ?Rmin_left, ?Rmin_right by lra ].

Ltac f32_eval := repeat f32_step.

(** Validity and finiteness of concrete float32 inputs. *)
Ltac f32_valid_by_computation :=
  unfold finite_inputs, Table.valid, is_matrix; cbn;
  repeat match goal with
         | |- _ /\ _ => split
         | |- Forall _ _ => constructor
         end;
  try reflexivity; try lia; try (unfold finite, FLT_MAX; lra).

(** ** Episode boundaries *)

Lemma agree_upto_get (N : arith) (t s b : nat)
    (m1 m2 : list (list (num N))) :
  agree_upto t m1 m2 -> (s <= t)%nat ->
  Table.get N m1 s b = Table.get N m2 s b.
Proof.
  intros H Hs. unfold Table.get, agree_upto in *.
  assert (E : forall m : list (list (num N)),
            nth s m [] = nth s (firstn (S t) m) []).
  { intros m. rewrite nth_firstn.
    destruct (Nat.ltb_spec s (S t)); [reflexivity | lia]. }
  now rewrite (E m1), (E m2), H.
Qed.

(** With [discounts[t][b] = 0] and numbers after step [t], the accumulator
    of lane [b] at the steps up to [t] reads the inputs only at the steps
    up to [t]. *)
Lemma acc_agree (T1 T2 : nat) (i1 i2 : Table.inputs f32)
    (crt : option threshold) (t b : nat) (v1 v2 a1 a2 : R) :
  (t < T1)%nat -> (t < T2)%nat ->
  inputs_agree_upto t i1 i2 ->
  Table.get f32 (Table.discounts f32 i1) t b = Num 0 ->
  Table.values_t_plus_1 f32 T1 i1 t b = Num v1 ->
  Table.values_t_plus_1 f32 T2 i2 t b = Num v2 ->
  Table.acc f32 T1 i1 crt (S t) b = Num a1 ->
  Table.acc f32 T2 i2 crt (S t) b = Num a2 ->
  forall k, (k <= t)%nat ->
    Table.acc f32 T1 i1 crt (t - k) b = Table.acc f32 T2 i2 crt (t - k) b.
Proof.
  intros Ht1 Ht2 (Hb & Htl & Hd & Hr & Hv) Hzero Hv1 Hv2 Ha1 Ha2.
  assert (Hrho : forall s, (s <= t)%nat ->
            Table.rhos f32 i1 s b = Table.rhos f32 i2 s b).
  { intros s Hs. unfold Table.rhos, Table.log_rhos.
    now rewrite (agree_upto_get f32 t s b _ _ Hb Hs),
      (agree_upto_get f32 t s b _ _ Htl Hs). }
  induction k as [| k IH]; intros Hk.
  - rewrite Nat.sub_0_r.
    rewrite (table_acc_step f32 T1 i1 crt t b Ht1),
      (table_acc_step f32 T2 i2 crt t b Ht2).
    unfold Table.deltas, Table.td, Table.clipped_rhos, Table.cs.
    rewrite Hv1, Hv2, Ha1, Ha2.
    rewrite <- (agree_upto_get f32 t t b _ _ Hd (le_n t)),
      <- (agree_upto_get f32 t t b _ _ Hr (le_n t)),
      <- (agree_upto_get f32 t t b _ _ Hv (le_n t)),
      <- (Hrho t (le_n t)), Hzero.
    f32_ops. rewrite !fmul_0_num.
    now rewrite (fmul_0_any_num _ a1 a2).
  - assert (Hs : (t - S k <= t)%nat) by lia.
    assert (Hs' : (S (t - S k) <= t)%nat) by lia.
    rewrite (table_acc_step f32 T1 i1 crt (t - S k) b) by lia.
    rewrite (table_acc_step f32 T2 i2 crt (t - S k) b) by lia.
    replace (S (t - S k)) with (t - k)%nat by lia.
    rewrite IH by lia.
    unfold Table.deltas, Table.td, Table.clipped_rhos, Table.cs,
      Table.values_t_plus_1, Table.shifted.
    destruct (Nat.ltb_spec (S (t - S k)) T1); [| lia].
    destruct (Nat.ltb_spec (S (t - S k)) T2); [| lia].
    rewrite <- (agree_upto_get f32 t _ b _ _ Hd Hs),
      <- (agree_upto_get f32 t _ b _ _ Hr Hs),
      <- (agree_upto_get f32 t _ b _ _ Hv Hs),
      <- (agree_upto_get f32 t _ b _ _ Hv Hs'),
      <- (Hrho _ Hs).
    reflexivity.
Qed.

Lemma numbers_after_table (T B : nat) (i : Table.inputs f32)
    (crt cpt : option threshold) (t b : nat) :
  (t < T)%nat -> (b < B)%nat ->
  numbers_after T (Table.locals f32 T i crt cpt B) t b ->
  (exists v, Table.values_t_plus_1 f32 T i t b = Num v) /\
  (exists a, Table.acc f32 T i crt (S t) b = Num a).
Proof.
  intros Ht Hb [[v Hv] Hacc]. cbn [Table.locals Locals.values_t_plus_1
                                   Locals.vs_minus_v_xs] in *.
  rewrite entry_mat in Hv by assumption. injection Hv as Hv.
  split; [now exists v |].
  destruct (Nat.lt_ge_cases (S t) T) as [Hlt | Hge].
  - destruct (Hacc Hlt) as [a Ha].
    rewrite entry_mat in Ha by assumption. injection Ha as Ha. now exists a.
  - exists 0. now rewrite table_acc_end.
Qed.

(** C6, refuted as stated.  [boundary_calm] and [boundary_overflow] are
    valid, agree at steps 0 and 1, and have [discounts[1] = 0]; they differ
    at step 2 only, in the target log-probability.  With no
    [clip_rho_threshold] the ratio [exp 200] of the second call is [+inf],
    so is its accumulator at step 2, and at step 1 the product
    [discounts[1] * cs[1] * acc = 0 * inf] is NaN.  At step 0, before the
    boundary, the first call returns [acc = 2] and [vs = 2], the second
    NaN. *)
Lemma C6_counterexample :
  Table.valid f32 3 1 boundary_calm /\
  Table.valid f32 3 1 boundary_overflow /\
  inputs_agree_upto 1 boundary_calm boundary_overflow /\
  Table.bootstrap_value f32 boundary_calm
  = Table.bootstrap_value f32 boundary_overflow /\
  Table.get f32 (Table.discounts f32 boundary_calm) 1 0 = Num 0 /\
  Table.get f32 (Table.discounts f32 boundary_overflow) 1 0 = Num 0 /\
  exists l1 l2,
    Table.run_locals f32 boundary_calm None None = Ok l1 /\
    Table.run_locals f32 boundary_overflow None None = Ok l2 /\
    entry (Locals.vs_minus_v_xs l1) 0 0 = Ok (Num 2) /\
    entry (Locals.vs_minus_v_xs l2) 0 0 = Ok NaN /\
    entry (Locals.vs l1) 0 0 = Ok (Num 2) /\
    entry (Locals.vs l2) 0 0 = Ok NaN.
Proof.
  assert (Hv1 : Table.valid f32 3 1 boundary_calm)
    by f32_valid_by_computation.
  assert (Hv2 : Table.valid f32 3 1 boundary_overflow)
    by f32_valid_by_computation.
  split; [exact Hv1 |]. split; [exact Hv2 |].
  split; [repeat split |]. split; [reflexivity |].
  split; [reflexivity |]. split; [reflexivity |].
  do 2 eexists.
  split; [apply (run_locals_table f32 3 1 boundary_calm _ _ Hv1) |].
  split; [apply (run_locals_table f32 3 1 boundary_overflow _ _ Hv2) |].
  cbn [Table.locals Locals.vs_minus_v_xs Locals.vs].
  rewrite !entry_mat by lia. repeat split; f_equal.
  - unfold boundary_calm. f32_table. f32_eval. reflexivity.
  - unfold boundary_overflow. f32_table. f32_eval. reflexivity.
  - unfold boundary_calm. f32_table. f32_eval. reflexivity.
  - unfold boundary_overflow. f32_table. f32_eval. reflexivity.
Qed.

(** C6, amended.  Take two valid calls on float32 arrays, of lengths [T1]
    and [T2], whose five arrays agree at all time steps up to and including
    [t], with [discounts[t]] zero on lane [b], under one
    [clip_rho_threshold].  Both return; and when in both what step [t] reads
    from later steps is a number, neither infinite nor NaN (the value
    estimate one step ahead, and the accumulator of step [t + 1]), they
    produce at every step up to [t] the same accumulator [acc_s] and the
    same [vs[s]] on that lane. *)
Theorem C6_isolation_of_finite_tails
    (T1 T2 B : nat) (i1 i2 : Table.inputs f32)
    (crt cpt1 cpt2 : option threshold) (t b : nat) :
  Table.valid f32 T1 B i1 -> Table.valid f32 T2 B i2 ->
  (t < T1)%nat -> (t < T2)%nat -> (b < B)%nat ->
  inputs_agree_upto t i1 i2 ->
  Table.get f32 (Table.discounts f32 i1) t b = Num 0 ->
  exists l1 l2,
    Table.run_locals f32 i1 crt cpt1 = Ok l1 /\
    Table.run_locals f32 i2 crt cpt2 = Ok l2 /\
    (numbers_after T1 l1 t b -> numbers_after T2 l2 t b ->
     forall s, (s <= t)%nat ->
       exists acc_s vs_s,
         entry (Locals.vs_minus_v_xs l1) s b = Ok acc_s /\
         entry (Locals.vs_minus_v_xs l2) s b = Ok acc_s /\
         entry (Locals.vs l1) s b = Ok vs_s /\
         entry (Locals.vs l2) s b = Ok vs_s).
Proof.
  intros Hv1 Hv2 Ht1 Ht2 Hb Hagree Hzero. do 2 eexists.
  split; [apply (run_locals_table f32 T1 B i1 crt cpt1 Hv1) |].
  split; [apply (run_locals_table f32 T2 B i2 crt cpt2 Hv2) |].
  intros Hn1 Hn2 s Hs.
  apply (numbers_after_table T1 B) in Hn1; [| assumption | assumption].
  apply (numbers_after_table T2 B) in Hn2; [| assumption | assumption].
  destruct Hn1 as [[v1 Hval1] [a1 Hacc1]], Hn2 as [[v2 Hval2] [a2 Hacc2]].
  cbn [Table.locals Locals.vs_minus_v_xs Locals.vs].
  exists (Table.acc f32 T1 i1 crt s b), (Table.vs f32 T1 i1 crt s b).
  assert (Eacc : Table.acc f32 T1 i1 crt s b = Table.acc f32 T2 i2 crt s b).
  { replace s with (t - (t - s))%nat by lia.
    apply (acc_agree T1 T2 i1 i2 crt t b v1 v2 a1 a2);
      (assumption || lia). }
  assert (Evs : Table.vs f32 T1 i1 crt s b = Table.vs f32 T2 i2 crt s b).
  { unfold Table.vs. rewrite Eacc. f_equal.
    destruct Hagree as (_ & _ & _ & _ & Hv).
    exact (agree_upto_get f32 t s b _ _ Hv Hs). }
  split; [apply entry_mat; (assumption || lia) |].
  split; [rewrite Eacc; apply entry_mat; (assumption || lia) |].
  split; [apply entry_mat; (assumption || lia) |].
  rewrite Evs. apply entry_mat; (assumption || lia).
Qed.

Lemma C6_witness :
  exists l1 l2,
    Table.run_locals f32 boundary_calm None None = Ok l1 /\
    Table.run_locals f32 boundary_longer None (Some (Finite 1)) = Ok l2 /\
    numbers_after 3 l1 1 0 /\ numbers_after 4 l2 1 0 /\
    forall s, (s <= 1)%nat ->
      exists acc_s vs_s,
        entry (Locals.vs_minus_v_xs l1) s 0 = Ok acc_s /\
        entry (Locals.vs_minus_v_xs l2) s 0 = Ok acc_s /\
        entry (Locals.vs l1) s 0 = Ok vs_s /\
        entry (Locals.vs l2) s 0 = Ok vs_s.
Proof.
  assert (Hv1 : Table.valid f32 3 1 boundary_calm)
    by f32_valid_by_computation.
  assert (Hv2 : Table.valid f32 4 1 boundary_longer)
    by f32_valid_by_computation.
  destruct (C6_isolation_of_finite_tails 3 4 1 boundary_calm boundary_longer
              None None (Some (Finite 1)) 1 0 Hv1 Hv2
              ltac:(lia) ltac:(lia) ltac:(lia)
              ltac:(repeat split) ltac:(reflexivity))
    as (l1 & l2 & H1 & H2 & H).
  assert (N1 : numbers_after 3 l1 1 0).
  { rewrite (run_locals_table f32 3 1 boundary_calm _ _ Hv1) in H1.
    injection H1 as <-.
    unfold numbers_after.
    cbn [Table.locals Locals.values_t_plus_1 Locals.vs_minus_v_xs].
    split.
    - exists 0. rewrite entry_mat by lia. f_equal.
    - intros _. exists 1. rewrite entry_mat by lia. f_equal.
      unfold boundary_calm. f32_table. f32_eval. reflexivity. }
  assert (N2 : numbers_after 4 l2 1 0).
  { rewrite (run_locals_table f32 4 1 boundary_longer _ _ Hv2) in H2.
    injection H2 as <-.
    unfold numbers_after.
    cbn [Table.locals Locals.values_t_plus_1 Locals.vs_minus_v_xs].
    split.
    - exists 3. rewrite entry_mat by lia. f_equal.
    - intros _. eexists. rewrite entry_mat by lia. f_equal.
      unfold boundary_longer. f32_table. f32_eval. reflexivity. }
  exists l1, l2. split; [exact H1 |]. split; [exact H2 |].
  split; [exact N1 |]. split; [exact N2 |]. exact (H N1 N2).
Defined.

(** In exact arithmetic the step before an episode boundary still reads the
    accumulator of the boundary step, through its own discount: what
    [discounts[t] = 0] removes from [acc_t] is the term of [acc_{t+1}]. *)
Remark acc_at_boundary (T : nat) (i : Spec.inputs) (crt : option threshold)
    (t b : nat) :
  (t < T)%nat -> get (Spec.discounts i) t b = 0 ->
  Spec.acc T i crt t b
  = Spec.clipped crt (Spec.rhos i t b)
    * (get (Spec.rewards i) t b - get (Spec.values i) t b).
Proof.
  intros Ht Hzero. rewrite acc_step by exact Ht.
  unfold Spec.deltas, Spec.td, Spec.clipped_rhos. rewrite Hzero. ring.
Qed.

(** ** Lowering the clip threshold *)

Lemma Rmin_exp_1_2 : Rmin (exp 1) 2 = 2.
Proof. apply Rmin_right. pose proof exp_1_gt_2. lra. Qed.

Lemma Rmin_exp_1_1 : Rmin (exp 1) 1 = 1.
Proof. apply Rmin_right. pose proof exp_1_gt_2. lra. Qed.

(** Evaluation of the entries of a concrete table. *)
Ltac eval_entry :=
  unfold Spec.vs, Spec.pg_advantages, Spec.vs_t_plus_1, Spec.acc; cbn;
  unfold Spec.vs, Spec.acc, Spec.deltas, Spec.cs, Spec.td,
    Spec.clipped_pg_rhos, Spec.clipped_rhos, Spec.rhos, Spec.log_rhos,
    Spec.values_t_plus_1, Spec.shifted, Spec.clipped, clip_max; cbn;
  replace (1 - 0) with 1 by lra; replace (0 - 0) with 0 by lra;
  rewrite ?exp_0, ?Rmin_exp_1_2, ?Rmin_exp_1_1,
    ?(Rmin_left 1 2), ?(Rmin_left 1 1) by lra.




(** ** Absent thresholds and infinite thresholds *)

(** The accumulator of a lane depends on [clip_rho_threshold] only through
    the clipped ratios of the steps of the trajectory. *)
Lemma acc_from_ext (T : nat) (i : Spec.inputs) (crt crt' : option threshold)
    (b : nat) :
  (forall t, (t < T)%nat ->
     Spec.clipped crt (Spec.rhos i t b) = Spec.clipped crt' (Spec.rhos i t b)) ->
  forall n t, (t + n = T)%nat ->
    Spec.acc_from T i crt n t b = Spec.acc_from T i crt' n t b.
Proof.
  intros H. induction n as [| n IH]; intros t Hn; [reflexivity |].
  cbn [Spec.acc_from]. rewrite (IH (S t)) by lia.
  unfold Spec.deltas, Spec.clipped_rhos. now rewrite H by lia.
Qed.

Lemma run_ext (T B : nat) (i : Spec.inputs)
    (crt crt' cpt cpt' : option threshold) :
  Spec.valid T B i ->
  (forall t b, (t < T)%nat -> (b < B)%nat ->
     Spec.clipped crt (Spec.rhos i t b) = Spec.clipped crt' (Spec.rhos i t b)) ->
  (forall t b, (t < T)%nat -> (b < B)%nat ->
     Spec.clipped cpt (Spec.rhos i t b) = Spec.clipped cpt' (Spec.rhos i t b)) ->
  Spec.run i crt cpt = Spec.run i crt' cpt'.
Proof.
  intros Hv Hr Hp.
  rewrite (run_spec T B i crt cpt Hv), (run_spec T B i crt' cpt' Hv).
  assert (Hvs : forall t b, (t < T)%nat -> (b < B)%nat ->
            Spec.vs T i crt t b = Spec.vs T i crt' t b).
  { intros t b Ht Hb. unfold Spec.vs, Spec.acc. f_equal.
    apply acc_from_ext; [| lia]. intros s Hs. now apply Hr. }
  do 2 f_equal; apply mat_ext; intros t b Ht Hb.
  - now apply Hvs.
  - unfold Spec.pg_advantages, Spec.clipped_pg_rhos, Spec.td,
      Spec.vs_t_plus_1, Spec.shifted.
    rewrite Hp by assumption.
    destruct (Nat.ltb_spec (S t) T); [| reflexivity].
    now rewrite Hvs.
Qed.

(** C8.  For every valid input the call returns, and the pair
    [(vs, pg_advantages)] is the same with both thresholds absent as with
    both thresholds [+inf]; it is also the same with both thresholds any
    finite bound that no importance ratio of the trajectory exceeds. *)
Theorem C8_absent_is_infinite (T B : nat) (i : Spec.inputs) :
  Spec.valid T B i ->
  (exists ret, Spec.run i None None = Ok ret) /\
  Spec.run i None None = Spec.run i (Some PosInf) (Some PosInf) /\
  forall M : R,
    (forall t b, (t < T)%nat -> (b < B)%nat ->
       exp (get (Spec.target_log_probs i) t b
            - get (Spec.behaviour_log_probs i) t b) <= M) ->
    Spec.run i None None = Spec.run i (Some (Finite M)) (Some (Finite M)).
Proof.
  intros Hv. split; [| split].
  - eexists. apply (run_spec T B i None None Hv).
  - apply (run_ext T B); [exact Hv | reflexivity | reflexivity].
  - intros M HM.
    apply (run_ext T B); [exact Hv | |]; intros t b Ht Hb; cbn;
      now rewrite Rmin_left by now apply HM.
Qed.

Lemma C8_witness :
  Spec.run sample None None = Spec.run sample (Some PosInf) (Some PosInf).
Proof.
  refine (proj1 (proj2 (C8_absent_is_infinite 2 2 sample _))).
  valid_by_computation.
Defined.

(** ** A single step *)

Lemma clipped_1 (thr : option threshold) :
  absent_or_at_least_1 thr -> Spec.clipped thr 1 = 1.
Proof.
  destruct thr as [[c |] |]; cbn; intros H; try reflexivity.
  now apply Rmin_left.
Qed.



(** ** Value estimates that already satisfy the backup *)

Lemma finite_get (T B : nat) (m : list (list fnum)) (t b : nat) :
  is_matrix T B m -> Forall (Forall finite) m ->
  (t < T)%nat -> (b < B)%nat ->
  exists r, Table.get f32 m t b = Num r /\ - FLT_MAX <= r <= FLT_MAX.
Proof.
  intros [HT HB] Hfin Ht Hb. unfold Table.get. f32_ops.
  assert (Hrow : In (nth t m []) m) by (apply nth_In; lia).
  rewrite Forall_forall in HB, Hfin.
  assert (Hin : In (nth b (nth t m []) (Num 0)) (nth t m [])).
  { apply nth_In. rewrite (HB _ Hrow). exact Hb. }
  pose proof (Hfin _ Hrow) as Hf. rewrite Forall_forall in Hf.
  specialize (Hf _ Hin).
  destruct (nth b (nth t m []) (Num 0)) as [r | | |]; try easy.
  exists r. split; [reflexivity | exact Hf].
Qed.

Lemma finite_getv (B : nat) (v : list fnum) (b : nat) :
  length v = B -> Forall finite v -> (b < B)%nat ->
  exists r, Table.getv f32 v b = Num r /\ - FLT_MAX <= r <= FLT_MAX.
Proof.
  intros HB Hfin Hb. unfold Table.getv. f32_ops.
  assert (Hin : In (nth b v (Num 0)) v) by (apply nth_In; lia).
  rewrite Forall_forall in Hfin. specialize (Hfin _ Hin).
  destruct (nth b v (Num 0)) as [r | | |]; try easy.
  exists r. split; [reflexivity | exact Hfin].
Qed.

(** The exponential of a float32 that is not NaN is [+inf] or a number of
    the range that is not negative. *)
Lemma fexp_range (x : fnum) :
  x <> NaN ->
  fexp x = PInf \/ exists r, fexp x = Num r /\ 0 <= r <= FLT_MAX.
Proof.
  pose proof FLT_MAX_pos as Hmax.
  destruct x as [r | | |]; intros Hx; cbn [fexp].
  - destruct (Rlt_dec FLT_MAX (exp r)); [now left | right].
    destruct (Rlt_dec (exp r) FLT_TINY).
    + exists 0. split; [reflexivity | lra].
    + exists (exp r). pose proof (exp_pos r). split; [reflexivity | lra].
  - now left.
  - right. exists 0. split; [reflexivity | lra].
  - easy.
Qed.

Lemma round_range_not_nan (r : R) : round_range r <> NaN.
Proof.
  unfold round_range.
  destruct (Rlt_dec FLT_MAX r); [easy |].
  destruct (Rlt_dec r (- FLT_MAX)); easy.
Qed.

(** The importance ratio of finite log-probabilities. *)
Lemma rhos_range (T B : nat) (i : Table.inputs f32) (t b : nat) :
  finite_inputs T B i -> (t < T)%nat -> (b < B)%nat ->
  Table.rhos f32 i t b = PInf \/
  exists r, Table.rhos f32 i t b = Num r /\ 0 <= r <= FLT_MAX.
Proof.
  intros ((_ & _ & Hb & Ht' & _) & Fb & Ft & _) Ht Hb'.
  unfold Table.rhos, Table.log_rhos.
  destruct (finite_get T B _ t b Ht' Ft Ht Hb') as (x & Hx & _).
  destruct (finite_get T B _ t b Hb Fb Ht Hb') as (y & Hy & _).
  rewrite Hx, Hy. f32_ops. apply fexp_range.
  cbn [fsub fneg fadd]. apply round_range_not_nan.
Qed.

Lemma cs_range (rho : fnum) :
  (rho = PInf \/ exists r, rho = Num r /\ 0 <= r <= FLT_MAX) ->
  exists c, fclip (Finite 1) rho = Num c /\ 0 <= c <= 1.
Proof.
  pose proof FLT_MAX_pos as Hmax.
  intros [-> | (r & -> & Hr)]; cbn [fclip].
  - exists 1. split; [reflexivity | lra].
  - destruct (Rlt_dec r (- FLT_MAX)); [lra |].
    destruct (Rlt_dec 1 r).
    + exists 1. split; [reflexivity | lra].
    + exists r. split; [reflexivity | lra].
Qed.

Section FixedPoint.
Variables T B : nat.
Variable i : Table.inputs f32.
Variables crt cpt : option threshold.
Hypothesis Hfinite : finite_inputs T B i.
Hypothesis Hfix : forall t b, (t < T)%nat -> (b < B)%nat ->
  Table.td f32 i (Table.values_t_plus_1 f32 T i) t b = Num 0.
Hypothesis Hclipped : forall t b, (t < T)%nat -> (b < B)%nat ->
  is_number (Table.clipped_rhos f32 i crt t b).

Lemma acc_from_fixed_point (b : nat) :
  (b < B)%nat ->
  forall n t, (t + n = T)%nat -> Table.acc_from f32 T i crt n t b = Num 0.
Proof.
  intros Hb. induction n as [| n IH]; intros t Hn; [reflexivity |].
  cbn [Table.acc_from]. rewrite (IH (S t)) by lia.
  unfold Table.deltas. rewrite Hfix by (assumption || lia).
  assert (Ht : (t < T)%nat) by lia.
  pose proof (Hclipped t b Ht Hb) as Hc.
  destruct (Table.clipped_rhos f32 i crt t b) as [c | | |]; try easy.
  destruct (cs_range _ (rhos_range T B i t b Hfinite Ht Hb))
    as (c' & Hcs & Hc').
  unfold Table.cs. f32_ops. rewrite Hcs.
  destruct Hfinite as ((_ & _ & _ & _ & Hd & _) & _ & _ & Fd & _).
  destruct (finite_get T B _ t b Hd Fd Ht Hb) as (g & -> & Hg).
  rewrite fmul_num_0. cbn [fmul].
  rewrite (round_range_num (g * c')) by nra.
  rewrite fmul_num_0. cbn [fadd]. apply round_range_0. ring.
Qed.

Lemma vs_fixed_point (t b : nat) :
  (t < T)%nat -> (b < B)%nat ->
  Table.vs f32 T i crt t b = Table.get f32 (Table.values f32 i) t b.
Proof.
  intros Ht Hb. unfold Table.vs, Table.acc.
  rewrite acc_from_fixed_point by (assumption || lia).
  destruct Hfinite as ((_ & _ & _ & _ & _ & _ & Hv & _) & _ & _ & _ & _ & Fv & _).
  destruct (finite_get T B _ t b Hv Fv Ht Hb) as (v & -> & Hrange).
  f32_ops. cbn [fadd]. apply round_range_value; [ring | exact Hrange].
Qed.
End FixedPoint.

(** C10, refuted as stated.  On [fixed_point_overflow] every entry is a
    finite float32 and the residual [1 + 1 * 1 - 2] is exactly zero, but
    the importance ratio [exp 200] is [+inf]; with no thresholds nothing
    clips it, and [inf * 0] is NaN in both outputs. *)
Lemma C10_counterexample :
  finite_inputs 1 1 fixed_point_overflow /\
  fsub (fadd (Table.get f32 (Table.rewards f32 fixed_point_overflow) 0 0)
          (fmul (Table.get f32 (Table.discounts f32 fixed_point_overflow) 0 0)
             (Table.getv f32
                (Table.bootstrap_value f32 fixed_point_overflow) 0)))
    (Table.get f32 (Table.values f32 fixed_point_overflow) 0 0) = Num 0 /\
  Table.run f32 fixed_point_overflow None None
  = Ok (mkVTraceReturns (of_matrix [[NaN]]) (of_matrix [[NaN]])) /\
  Table.values f32 fixed_point_overflow <> [[NaN]].
Proof.
  assert (Hfin : finite_inputs 1 1 fixed_point_overflow)
    by f32_valid_by_computation.
  split; [exact Hfin |].
  split; [cbn; f32_eval; reflexivity |].
  split; [| discriminate].
  destruct Hfin as [Hv _].
  rewrite (run_table f32 1 1 _ _ _ Hv). unfold mat, tabulate. cbn [seq map].
  do 5 f_equal.
  - unfold fixed_point_overflow. f32_table. f32_eval. reflexivity.
  - unfold fixed_point_overflow. f32_table. f32_eval. reflexivity.
Qed.

(** C10, amended.  Take a valid input of finite float32 numbers whose
    residual [rewards[t] + discounts[t] * values_t_plus_1[t] - values[t]],
    as the function computes it, is zero at every step and lane.  Whenever
    the clipped ratios [clipped_rhos] and [clipped_pg_rhos] are numbers,
    as they are under finite thresholds and whenever [exp] does not
    overflow, the call returns [vs] equal to [values] and [pg_advantages]
    zero everywhere. *)
Theorem C10_fixed_point_with_finite_ratios
    (T B : nat) (i : Table.inputs f32) (crt cpt : option threshold) :
  finite_inputs T B i ->
  (forall t b, (t < T)%nat -> (b < B)%nat ->
     fsub (fadd (Table.get f32 (Table.rewards f32 i) t b)
             (fmul (Table.get f32 (Table.discounts f32 i) t b)
                (if (S t <? T)%nat
                 then Table.get f32 (Table.values f32 i) (S t) b
                 else Table.getv f32 (Table.bootstrap_value f32 i) b)))
       (Table.get f32 (Table.values f32 i) t b) = Num 0) ->
  (forall t b, (t < T)%nat -> (b < B)%nat ->
     is_number (Table.clipped_rhos f32 i crt t b) /\
     is_number (Table.clipped_pg_rhos f32 i cpt t b)) ->
  Table.run f32 i crt cpt
  = Ok (mkVTraceReturns (of_matrix (Table.values f32 i))
          (mat T B (fun _ _ => Num 0))).
Proof.
  intros Hfin Hfix Hclip.
  pose proof Hfin as (Hv & _).
  rewrite (run_table f32 T B i crt cpt Hv).
  assert (Hvs : forall t b, (t < T)%nat -> (b < B)%nat ->
            Table.vs f32 T i crt t b
            = Table.get f32 (Table.values f32 i) t b).
  { intros t b Ht Hb. apply (vs_fixed_point T B); try assumption.
    intros s c Hs Hc. now apply Hclip. }
  destruct Hv as (_ & _ & _ & _ & _ & _ & Hvalues & _).
  rewrite (of_matrix_nth (n_zero f32) T B _ Hvalues).
  do 2 f_equal; apply mat_ext; intros t b Ht Hb.
  - now apply Hvs.
  - unfold Table.pg_advantages.
    replace (Table.td f32 i (Table.vs_t_plus_1 f32 T i crt) t b)
      with (Num 0).
    + destruct (Hclip t b Ht Hb) as [_ Hp].
      destruct (Table.clipped_pg_rhos f32 i cpt t b) as [c | | |]; try easy.
      f32_ops. apply fmul_num_0.
    + rewrite <- (Hfix t b Ht Hb).
      unfold Table.td, Table.vs_t_plus_1, Table.shifted.
      destruct (Nat.ltb_spec (S t) T); [| reflexivity].
      now rewrite Hvs.
Qed.

Lemma C10_witness :
  Table.run f32 fixed_point_overflow (Some (Finite 1)) (Some (Finite 2))
  = Ok (mkVTraceReturns (of_matrix [[Num 2]]) (of_matrix [[Num 0]])).
Proof.
  apply (C10_fixed_point_with_finite_ratios 1 1 fixed_point_overflow
           (Some (Finite 1)) (Some (Finite 2))).
  - f32_valid_by_computation.
  - intros [| t] [| b] Ht Hb; try lia. cbn. f32_eval. reflexivity.
  - intros [| t] [| b] Ht Hb; try lia.
    unfold fixed_point_overflow. f32_table. f32_eval. split; exact I.
Defined.

(** ** What is checked at call entry *)

(** C4, refuted as stated.  A single step with [clip_rho_threshold = -1]
    breaks the contract, yet the call returns a result: the ratio 1 is
    clipped to -1, which gives [vs = [[-1]]]. *)
Lemma C4_counterexample :
  ~ contract (of_matrix [[0]]) (of_matrix [[0]]) (of_matrix [[1]])
      (of_matrix [[1]]) (of_matrix [[0]]) (of_vector [0])
      (Some (Finite (-1))) None /\
  from_importance_weights (of_matrix [[0]]) (of_matrix [[0]])
    (of_matrix [[1]]) (of_matrix [[1]]) (of_matrix [[0]]) (of_vector [0])
    (Some (Finite (-1))) None
  = Ok (mkVTraceReturns (of_matrix [[-1]]) (of_matrix [[1]])).
Proof.
  split.
  - unfold contract, positive_threshold. intros (_ & _ & _ & _ & _ & _ & H & _).
    lra.
  - change (Spec.run (single_step 0 1 1 0 0) (Some (Finite (-1))) None
            = Ok (mkVTraceReturns (of_matrix [[-1]]) (of_matrix [[1]]))).
    assert (Hv : Spec.valid 1 1 (single_step 0 1 1 0 0))
      by valid_by_computation.
    rewrite (run_spec 1 1 _ _ _ Hv). unfold mat, tabulate. cbn [seq map].
    do 5 f_equal.
    + eval_entry. rewrite Rmin_right by lra. lra.
    + eval_entry. lra.
Qed.

(** A rank mismatch fails one of the assertions at the head of the
    function. *)
Lemma rank_mismatch_asserts
    (behaviour_actions_log_probs target_actions_log_probs
     discounts rewards values bootstrap_value : tensor R)
    (clip_rho_threshold clip_pg_rho_threshold : option threshold) :
  rank_mismatch behaviour_actions_log_probs target_actions_log_probs
    discounts rewards values bootstrap_value ->
  from_importance_weights
    behaviour_actions_log_probs target_actions_log_probs
    discounts rewards values bootstrap_value
    clip_rho_threshold clip_pg_rho_threshold
  = Err AssertionError.
Proof.
  intros H. unfold from_importance_weights, from_importance_weights_locals,
    rank_is. cbn [num exact].
  destruct (Z.eqb_spec (Z.of_nat (rank target_actions_log_probs))
              (Z.of_nat (rank behaviour_actions_log_probs)));
    [| reflexivity].
  destruct (Z.eqb_spec (Z.of_nat (rank values))
              (Z.of_nat (rank behaviour_actions_log_probs)));
    [| reflexivity].
  destruct (Z.eqb_spec (Z.of_nat (rank bootstrap_value))
              (Z.of_nat (rank behaviour_actions_log_probs) - 1));
    [| reflexivity].
  destruct (Z.eqb_spec (Z.of_nat (rank discounts))
              (Z.of_nat (rank behaviour_actions_log_probs)));
    [| reflexivity].
  destruct (Z.eqb_spec (Z.of_nat (rank rewards))
              (Z.of_nat (rank behaviour_actions_log_probs)));
    [| reflexivity].
  exfalso. unfold rank_mismatch in H. lia.
Qed.

(** [paddle.concat] accepts [values[1:]] and [unsqueeze(bootstrap_value)]
    only when [bootstrap_value] has the shape of the trailing dimensions of
    [values], whatever the length of the time axis is. *)
Lemma concat_bootstrap_shape {A : Type} (values bootstrap_value : tensor A)
    (values_1 values_t_plus_1 : tensor A) :
  slice_from_1 values = Ok values_1 ->
  concat values_1 (unsqueeze bootstrap_value) = Ok values_t_plus_1 ->
  shape bootstrap_value = tl (shape values).
Proof.
  destruct values as [x | inner items]; cbn [slice_from_1]; [discriminate |].
  intros [= <-]. unfold unsqueeze. cbn [concat shape tl].
  destruct (shape_eqb inner (shape bootstrap_value)) eqn:E; [| discriminate].
  intros _. symmetry. now apply shape_eqb_eq.
Qed.

(** A call that returns has passed line 110, hence its [bootstrap_value]
    has the shape of the trailing dimensions of [values]. *)
Lemma returns_bootstrap_shape
    (behaviour_actions_log_probs target_actions_log_probs
     discounts rewards values bootstrap_value : tensor R)
    (clip_rho_threshold clip_pg_rho_threshold : option threshold)
    (ret : VTraceReturns R) :
  from_importance_weights
    behaviour_actions_log_probs target_actions_log_probs
    discounts rewards values bootstrap_value
    clip_rho_threshold clip_pg_rho_threshold = Ok ret ->
  shape bootstrap_value = tl (shape values).
Proof.
  unfold from_importance_weights. intros H0.
  destruct (from_importance_weights_locals
              behaviour_actions_log_probs target_actions_log_probs
              discounts rewards values bootstrap_value
              clip_rho_threshold clip_pg_rho_threshold)
    as [l | e] eqn:H; [clear H0 | discriminate H0].
  unfold from_importance_weights_locals in H.
  repeat match type of H with
         | bind ?m _ = Ok _ =>
             destruct m as [? | ?] eqn:?; cbn [bind] in H; [| discriminate H]
         | (let (_, _) := ?p in _) = Ok _ => destruct p
         end.
  match goal with
  | H1 : @slice_from_1 _ values = Ok ?v,
    H2 : @concat _ ?v (@unsqueeze _ bootstrap_value) = Ok ?w |- _ =>
      exact (concat_bootstrap_shape values bootstrap_value v w H1 H2)
  end.
Qed.

(** C4, amended.  Two kinds of violation make the call fail, whatever the
    thresholds are.  When one of the five arrays has a rank other than that
    of [behaviour_actions_log_probs], or the rank of [bootstrap_value] is
    not exactly one less, the call fails at its entry with an assertion
    error.  When [bootstrap_value] has not the shape of the trailing
    dimensions of [values], the call fails too and returns no result: with
    matching ranks it is [paddle.concat] that rejects the shapes. *)
Theorem C4_rank_or_bootstrap_shape_mismatch_fails
    (behaviour_actions_log_probs target_actions_log_probs
     discounts rewards values bootstrap_value : tensor R)
    (clip_rho_threshold clip_pg_rho_threshold : option threshold) :
  rank_mismatch behaviour_actions_log_probs target_actions_log_probs
    discounts rewards values bootstrap_value \/
  shape bootstrap_value <> tl (shape values) ->
  exists e,
    from_importance_weights
      behaviour_actions_log_probs target_actions_log_probs
      discounts rewards values bootstrap_value
      clip_rho_threshold clip_pg_rho_threshold
    = Err e /\
    (rank_mismatch behaviour_actions_log_probs target_actions_log_probs
       discounts rewards values bootstrap_value -> e = AssertionError).
Proof.
  intros H.
  destruct (from_importance_weights
              behaviour_actions_log_probs target_actions_log_probs
              discounts rewards values bootstrap_value
              clip_rho_threshold clip_pg_rho_threshold)
    as [ret | e] eqn:E.
  - exfalso. destruct H as [H | H].
    + rewrite (rank_mismatch_asserts _ _ _ _ _ _ _ _ H) in E. discriminate E.
    + apply H. exact (returns_bootstrap_shape _ _ _ _ _ _ _ _ ret E).
  - exists e. split; [reflexivity |]. intros Hr.
    rewrite (rank_mismatch_asserts _ _ _ _ _ _ _ _ Hr) in E.
    now injection E as <-.
Qed.

(** One step of two lanes with a [bootstrap_value] of three lanes: the
    ranks are right, [values[1:]] is empty and still two lanes wide. *)
Lemma C4_witness :
  exists e,
    from_importance_weights
      (of_matrix [[0; 0]]) (of_matrix [[0; 0]]) (of_matrix [[1; 1]])
      (of_matrix [[1; 1]]) (of_matrix [[0; 0]]) (of_vector [0; 0; 0])
      (Some (Finite 1)) (Some (Finite 1))
    = Err e /\
    (rank_mismatch
       (of_matrix [[0; 0]]) (of_matrix [[0; 0]]) (of_matrix [[1; 1]])
       (of_matrix [[1; 1]]) (of_matrix [[0; 0]]) (of_vector [0; 0; 0])
     -> e = AssertionError).
Proof.
  apply C4_rank_or_bootstrap_shape_mismatch_fails.
  right. cbn. discriminate.
Defined.

(** In that call the error is raised by the tensor operation, after the
    assertions; a [bootstrap_value] of rank 2 fails an assertion. *)
Example bootstrap_mismatch_fails_in_concat :
  from_importance_weights
    (of_matrix [[0; 0]]) (of_matrix [[0; 0]]) (of_matrix [[1; 1]])
    (of_matrix [[1; 1]]) (of_matrix [[0; 0]]) (of_vector [0; 0; 0])
    (Some (Finite 1)) (Some (Finite 1))
  = Err TensorError /\
  from_importance_weights (of_matrix [[0]]) (of_matrix [[0]])
    (of_matrix [[1]]) (of_matrix [[1]]) (of_matrix [[0]]) (of_matrix [[0]])
    (Some (Finite 1)) (Some (Finite 1))
  = Err AssertionError.
Proof. split; reflexivity. Qed.

(** Arrays of one rank and different sizes pass the entry assertions.  A
    [rewards] array of shape [1, 1] among arrays of shape [2, 1] is
    stretched along the time axis and the call returns. *)
Example shape_mismatch_is_broadcast :
  ~ contract (of_matrix [[0]; [0]]) (of_matrix [[0]; [0]])
      (of_matrix [[1]; [1]]) (of_matrix [[5]]) (of_matrix [[0]; [0]])
      (of_vector [0]) None None /\
  exists ret,
    from_importance_weights (of_matrix [[0]; [0]]) (of_matrix [[0]; [0]])
      (of_matrix [[1]; [1]]) (of_matrix [[5]]) (of_matrix [[0]; [0]])
      (of_vector [0]) None None
    = Ok ret.
Proof.
  split.
  - intros (_ & _ & H & _). cbn in H. discriminate H.
  - eexists. cbn. reflexivity.
Qed.

(** Sizes that cannot be stretched make the call fail, in the first tensor
    operation and not in an assertion. *)
Example shape_mismatch_fails_in_tensor_op :
  from_importance_weights
    (of_matrix [[0; 0; 0]; [0; 0; 0]]) (of_matrix [[0; 0]; [0; 0]])
    (of_matrix [[1; 1]; [1; 1]]) (of_matrix [[5; 5]; [5; 5]])
    (of_matrix [[0; 0]; [0; 0]]) (of_vector [0; 0]) None None
  = Err TensorError.
Proof. reflexivity. Qed.

(** On any tensors at all, when the call returns, [cs] is [rhos] clipped at
    1.0: no threshold enters it. *)
Lemma cs_any_input
    (behaviour_actions_log_probs target_actions_log_probs
     discounts rewards values bootstrap_value : tensor R)
    (crt cpt : option threshold) (l : Locals.t R) :
  from_importance_weights_locals
    behaviour_actions_log_probs target_actions_log_probs
    discounts rewards values bootstrap_value crt cpt = Ok l ->
  Locals.cs l = tmap (fun x => Rmin x 1) (Locals.rhos l).
Proof.
  unfold from_importance_weights_locals. intros H.
  repeat match type of H with
         | bind ?m _ = Ok _ =>
             destruct m as [? | ?] eqn:?; cbn [bind] in H; [| discriminate H]
         | (let (_, _) := ?p in _) = Ok _ => destruct p
         end.
  injection H as <-. reflexivity.
Qed.

(** * Further properties of [from_importance_weights] *)

(** ** Shapes *)

(** X1.  On every valid input both outputs, and the stacked accumulators,
    have the shape [T, B] of [values]. *)
Theorem outputs_have_shape_of_values
    (T B : nat) (i : Spec.inputs) (crt cpt : option threshold) :
  Spec.valid T B i ->
  exists l,
    Spec.run_locals i crt cpt = Ok l /\
    shape (of_matrix (Spec.values i)) = [T; B] /\
    shape (Locals.vs_minus_v_xs l) = [T; B] /\
    shape (Locals.vs l) = [T; B] /\
    shape (Locals.pg_advantages l) = [T; B] /\
    shape (Locals.acc l) = [B].
Proof.
  intros Hv. eexists. split; [apply (run_locals_spec T B i crt cpt Hv) |].
  destruct Hv as (HT & _ & _ & _ & _ & _ & Hvalues & _).
  rewrite (of_matrix_mat T B _ Hvalues). cbn [Spec.locals Locals.vs
    Locals.vs_minus_v_xs Locals.pg_advantages Locals.acc].
  rewrite !shape_mat by exact HT. rewrite shape_vec. repeat split.
Qed.

Lemma outputs_have_shape_of_values_witness :
  exists l,
    Spec.run_locals sample (Some (Finite 1)) (Some (Finite 1)) = Ok l /\
    shape (of_matrix (Spec.values sample)) = [2; 2]%nat /\
    shape (Locals.vs_minus_v_xs l) = [2; 2]%nat /\
    shape (Locals.vs l) = [2; 2]%nat /\
    shape (Locals.pg_advantages l) = [2; 2]%nat /\
    shape (Locals.acc l) = [2]%nat.
Proof.
  apply (outputs_have_shape_of_values 2 2 sample). valid_by_computation.
Defined.

(** ** The recursion between consecutive targets *)



(** ** On-policy trajectories *)

(** X3.  When the target and behaviour log-probabilities coincide and each
    threshold is absent or at least 1, no clipping takes place: [vs[t]] is
    the bootstrapped return [rewards[t] + discounts[t] * vs[t+1]], with
    [bootstrap_value] after the last step, and [pg_advantages] is
    [vs - values]. *)
Theorem on_policy_return
    (T B : nat) (i : Spec.inputs) (crt cpt : option threshold) :
  Spec.valid T B i ->
  Spec.target_log_probs i = Spec.behaviour_log_probs i ->
  absent_or_at_least_1 crt -> absent_or_at_least_1 cpt ->
  exists ret,
    Spec.run i crt cpt = Ok ret /\
    forall t b, (t < T)%nat -> (b < B)%nat ->
      exists x x_next,
        entry (vs ret) t b = Ok x /\
        (if (S t <? T)%nat then entry (vs ret) (S t) b = Ok x_next
         else x_next = getv (Spec.bootstrap_value i) b) /\
        x = get (Spec.rewards i) t b + get (Spec.discounts i) t b * x_next /\
        entry (pg_advantages ret) t b = Ok (x - get (Spec.values i) t b).
Proof.
  intros Hv Hon Hcrt Hcpt. eexists.
  split; [apply (run_spec T B i crt cpt Hv) |].
  cbn [vs pg_advantages]. intros t b Ht Hb.
  assert (Hrho : forall s, Spec.rhos i s b = 1).
  { intros s. unfold Spec.rhos, Spec.log_rhos. rewrite Hon.
    rewrite Rminus_diag. apply exp_0. }
  exists (Spec.vs T i crt t b), (Spec.vs_t_plus_1 T i crt t b).
  rewrite !entry_mat by assumption.
  split; [reflexivity |].
  assert (Hx : Spec.vs T i crt t b
               = get (Spec.rewards i) t b
                 + get (Spec.discounts i) t b * Spec.vs_t_plus_1 T i crt t b).
  { unfold Spec.vs at 1. rewrite acc_step by exact Ht.
    unfold Spec.deltas, Spec.td, Spec.clipped_rhos, Spec.cs,
      Spec.vs_t_plus_1, Spec.values_t_plus_1, Spec.shifted.
    rewrite Hrho, (clipped_1 crt Hcrt), Rmin_left by lra.
    destruct (Nat.ltb_spec (S t) T).
    - unfold Spec.vs. ring.
    - rewrite (acc_end T i crt (S t) b) by lia. ring. }
  split; [| split].
  - unfold Spec.vs_t_plus_1, Spec.shifted.
    destruct (Nat.ltb_spec (S t) T); [now apply entry_mat | reflexivity].
  - exact Hx.
  - rewrite entry_mat by assumption. f_equal.
    unfold Spec.pg_advantages, Spec.clipped_pg_rhos, Spec.td.
    rewrite Hrho, (clipped_1 cpt Hcpt), Hx. ring.
Qed.

Lemma on_policy_return_witness :
  exists ret,
    Spec.run (single_step 0 (1 / 2) 3 4 10) None (Some (Finite 2)) = Ok ret /\
    entry (vs ret) 0 0 = Ok (3 + 1 / 2 * 10) /\
    entry (pg_advantages ret) 0 0 = Ok (3 + 1 / 2 * 10 - 4).
Proof.
  destruct (on_policy_return 1 1 (single_step 0 (1 / 2) 3 4 10)
              None (Some (Finite 2)) ltac:(valid_by_computation)
              eq_refl I ltac:(cbn; lra)) as (ret & Hret & H).
  exists ret. split; [exact Hret |].
  destruct (H 0%nat 0%nat ltac:(lia) ltac:(lia))
    as (x & x_next & Hx & Hnext & Heq & Hpg).
  cbn in Hnext, Heq. subst x_next. subst x. split; [exact Hx | exact Hpg].
Defined.

(** ** Which failures are assertion failures *)

Lemma not_assertion_bind {A B : Type} (m : result A) (k : A -> result B) :
  not_assertion m -> (forall a, not_assertion (k a)) ->
  not_assertion (bind m k).
Proof. destruct m as [a | [|]]; cbn; intros Hm Hk; [apply Hk | easy | easy]. Qed.

Lemma not_assertion_mapM {A B : Type} (f : A -> result B) (l : list A) :
  Forall (fun a => not_assertion (f a)) l -> not_assertion (mapM f l).
Proof.
  induction 1 as [| a l Ha _ IH]; [exact I |].
  cbn [mapM]. apply not_assertion_bind; [exact Ha |]. intros b.
  apply not_assertion_bind; [exact IH |]. intros bs. exact I.
Qed.

Lemma not_assertion_zipM {A B C : Type} (f : A -> B -> result C)
    (l : list A) :
  Forall (fun a => forall b, not_assertion (f a b)) l ->
  forall r, not_assertion (zipM f l r).
Proof.
  induction 1 as [| a l Ha _ IH]; intros [| b r]; try exact I.
  cbn [zipM]. apply not_assertion_bind; [apply Ha |]. intros c.
  apply not_assertion_bind; [apply IH |]. intros cs. exact I.
Qed.

Lemma not_assertion_broadcast {A : Type} (f : A -> A -> A) (a : tensor A) :
  forall b, not_assertion (broadcast f a b).
Proof.
  induction a as [x | s xs IH] using tensor_induction; intros [y | s' ys];
    try exact I.
  cbn [broadcast]. apply not_assertion_bind.
  { apply not_assertion_zipM. apply Forall_forall. intros m _ n.
    unfold broadcast_dim.
    destruct (m =? n)%nat; [exact I |].
    destruct (m =? 1)%nat; [exact I |].
    destruct (n =? 1)%nat; exact I. }
  intros inner.
  assert (Hzip : not_assertion
                   (zs <- zipM (broadcast f) xs ys ;; Ok (Dim inner zs))).
  { apply not_assertion_bind; [now apply not_assertion_zipM |].
    intros zs. exact I. }
  assert (Hright : forall y,
            not_assertion
              (zs <- mapM (fun x => broadcast f x y) xs ;; Ok (Dim inner zs))).
  { intros y. apply not_assertion_bind; [| intros zs; exact I].
    apply not_assertion_mapM. revert IH. apply Forall_impl.
    intros x Hx. apply Hx. }
  destruct xs as [| x [| x' xs]].
  - destruct ys as [| y [| y' ys]]; [exact Hzip | apply Hright | exact Hzip].
  - apply not_assertion_bind; [| intros zs; exact I].
    apply not_assertion_mapM. apply Forall_forall. intros y _.
    inversion IH as [| ? ? Hx _]; subst. apply Hx.
  - destruct ys as [| y [| y' ys]]; [exact Hzip | apply Hright | exact Hzip].
Qed.

Lemma not_assertion_binop {A : Type} (f : A -> A -> A) (a b : tensor A) :
  not_assertion (binop f a b).
Proof. apply not_assertion_broadcast. Qed.

Lemma not_assertion_tindex {A : Type} (t : tensor A) (k : nat) :
  not_assertion (tindex t k).
Proof.
  destruct t as [x | s items]; [exact I |]. cbn [tindex].
  now destruct (nth_error items k).
Qed.

Lemma not_assertion_slice {A : Type} (t : tensor A) :
  not_assertion (slice_from_1 t).
Proof. now destruct t. Qed.

Lemma not_assertion_concat {A : Type} (a b : tensor A) :
  not_assertion (concat a b).
Proof.
  destruct a as [x | s xs], b as [y | s' ys]; try exact I.
  cbn [concat]. now destruct (shape_eqb s s').
Qed.

Lemma not_assertion_stack {A : Type} (l : list (tensor A)) :
  not_assertion (stack l).
Proof.
  destruct l as [| x l]; [exact I |]. cbn [stack].
  now destruct (same_shapes (x :: l)).
Qed.

Lemma not_assertion_shape0 {A : Type} (t : tensor A) :
  not_assertion (shape0 t).
Proof. unfold shape0. now destruct (shape t). Qed.

Lemma not_assertion_for_loop {N : arith} (deltas discounts cs : tensor (num N))
    (ts : list nat) :
  forall st, not_assertion (for_loop deltas discounts cs ts st).
Proof.
  induction ts as [| t ts IH]; intros [acc res]; [exact I |].
  cbn [for_loop]. apply not_assertion_bind; [| exact IH].
  unfold loop_body, tmul, tadd.
  repeat (apply not_assertion_bind;
          [first [apply not_assertion_tindex | apply not_assertion_binop] |];
          intros ?).
  exact I.
Qed.

Ltac not_assertion_steps :=
  lazymatch goal with
  | |- not_assertion (bind _ _) =>
      apply not_assertion_bind; [not_assertion_steps | intros ?;
                                                       not_assertion_steps]
  | |- not_assertion (Ok _) => exact I
  | |- not_assertion (let (_, _) := ?p in _) =>
      destruct p; not_assertion_steps
  | |- _ =>
      first [apply not_assertion_binop | apply not_assertion_slice
            | apply not_assertion_concat | apply not_assertion_shape0
            | apply not_assertion_for_loop | apply not_assertion_stack
            | apply not_assertion_tindex]
  end.

(** X4.  On any tensors and thresholds, the call fails with an assertion
    error exactly when the ranks mismatch; every other failure comes from a
    tensor operation. *)
Theorem assertion_error_iff_rank_mismatch
    (behaviour_actions_log_probs target_actions_log_probs
     discounts rewards values bootstrap_value : tensor R)
    (clip_rho_threshold clip_pg_rho_threshold : option threshold) :
  from_importance_weights
    behaviour_actions_log_probs target_actions_log_probs
    discounts rewards values bootstrap_value
    clip_rho_threshold clip_pg_rho_threshold
  = Err AssertionError
  <->
  rank_mismatch behaviour_actions_log_probs target_actions_log_probs
    discounts rewards values bootstrap_value.
Proof.
  unfold from_importance_weights, from_importance_weights_locals, rank_is,
    rank_mismatch. cbn [num exact].
  destruct (Z.eqb_spec (Z.of_nat (rank target_actions_log_probs))
              (Z.of_nat (rank behaviour_actions_log_probs)));
    [| split; [intros _; lia | reflexivity]].
  destruct (Z.eqb_spec (Z.of_nat (rank values))
              (Z.of_nat (rank behaviour_actions_log_probs)));
    [| split; [intros _; lia | reflexivity]].
  destruct (Z.eqb_spec (Z.of_nat (rank bootstrap_value))
              (Z.of_nat (rank behaviour_actions_log_probs) - 1));
    [| split; [intros _; lia | reflexivity]].
  destruct (Z.eqb_spec (Z.of_nat (rank discounts))
              (Z.of_nat (rank behaviour_actions_log_probs)));
    [| split; [intros _; lia | reflexivity]].
  destruct (Z.eqb_spec (Z.of_nat (rank rewards))
              (Z.of_nat (rank behaviour_actions_log_probs)));
    [| split; [intros _; lia | reflexivity]].
  cbn [assert bind]. split; [| intros H; exfalso; lia].
  intros H. exfalso.
  match type of H with
  | ?r = _ => assert (Hna : not_assertion r)
  end.
  { unfold tsub, tmul, tadd. not_assertion_steps. }
  rewrite H in Hna. exact Hna.
Qed.

(** ** An empty time axis *)

(** X5.  When [discounts.shape[0]] is 0 the loop body never runs, [result]
    stays empty and [paddle.stack] rejects it: the call returns no result,
    whatever the other arguments are. *)
Theorem empty_trajectory_fails
    (behaviour_actions_log_probs target_actions_log_probs
     discounts rewards values bootstrap_value : tensor R)
    (clip_rho_threshold clip_pg_rho_threshold : option threshold) :
  shape0 discounts = Ok 0%nat ->
  exists e,
    from_importance_weights
      behaviour_actions_log_probs target_actions_log_probs
      discounts rewards values bootstrap_value
      clip_rho_threshold clip_pg_rho_threshold
    = Err e.
Proof.
  intros H0. unfold from_importance_weights.
  destruct (from_importance_weights_locals _ _ _ _ _ _ _ _) as [l | e] eqn:E;
    [exfalso | now exists e].
  unfold from_importance_weights_locals in E. cbn [num exact] in E.
  rewrite H0 in E.
  cbn [bind for_loop range_down seq rev stack app] in E.
  repeat match type of E with
         | bind ?m _ = Ok _ =>
             destruct m as [? | ?] eqn:?; cbn [bind] in E; [| discriminate E]
         end.
  discriminate E.
Qed.

Lemma empty_trajectory_fails_witness :
  exists e,
    from_importance_weights (Dim [2%nat] []) (Dim [2%nat] [])
      (Dim [2%nat] []) (Dim [2%nat] []) (Dim [2%nat] [])
      (of_vector [0; 0]) (Some (Finite 1)) (Some (Finite 1))
    = Err e.
Proof.
  apply empty_trajectory_fails. reflexivity.
Defined.

Example empty_trajectory_error :
  from_importance_weights (Dim [2%nat] []) (Dim [2%nat] [])
    (Dim [2%nat] []) (Dim [2%nat] []) (Dim [2%nat] [])
    (of_vector [0; 0]) (Some (Finite 1)) (Some (Finite 1))
  = Err TensorError.
Proof. reflexivity. Qed.

(** ** Dropping the first steps of a trajectory *)

Lemma is_matrix_skipn (T B s : nat) (m : matrix) :
  is_matrix T B m -> is_matrix (T - s) B (skipn s m).
Proof.
  intros [HT HB]. split; [now rewrite length_skipn, HT |].
  rewrite <- (firstn_skipn s m) in HB. now apply Forall_app in HB.
Qed.

Lemma suffix_valid (T B s : nat) (i : Spec.inputs) :
  Spec.valid T B i -> (s < T)%nat -> Spec.valid (T - s) B (suffix s i).
Proof.
  intros (HT & HB & Hb & Ht & Hd & Hr & Hv & Hboot) Hs.
  unfold Spec.valid, suffix. cbn.
  split; [lia |]. split; [exact HB |].
  repeat (split; [now apply is_matrix_skipn |]). exact Hboot.
Qed.

Lemma get_skipn (s t b : nat) (m : matrix) :
  get (skipn s m) t b = get m (s + t) b.
Proof. unfold get. now rewrite nth_skipn. Qed.

Lemma rhos_suffix (s : nat) (i : Spec.inputs) (t b : nat) :
  Spec.rhos (suffix s i) t b = Spec.rhos i (s + t) b.
Proof.
  unfold Spec.rhos, Spec.log_rhos.
  cbn [suffix Spec.target_log_probs Spec.behaviour_log_probs].
  now rewrite !get_skipn.
Qed.

Lemma acc_from_suffix (T s : nat) (i : Spec.inputs) (crt : option threshold)
    (b : nat) :
  (s <= T)%nat ->
  forall n t,
    Spec.acc_from (T - s) (suffix s i) crt n t b
    = Spec.acc_from T i crt n (s + t) b.
Proof.
  intros Hs. induction n as [| n IH]; intros t; [reflexivity |].
  cbn [Spec.acc_from]. rewrite IH, Nat.add_succ_r.
  unfold Spec.deltas, Spec.clipped_rhos, Spec.cs, Spec.td,
    Spec.values_t_plus_1, Spec.shifted.
  rewrite rhos_suffix. cbn [suffix Spec.discounts Spec.rewards Spec.values
                             Spec.bootstrap_value].
  rewrite !get_skipn, Nat.add_succ_r.
  destruct (Nat.ltb_spec (S t) (T - s)), (Nat.ltb_spec (S (s + t)) T);
    try lia; reflexivity.
Qed.

Lemma vs_suffix (T s : nat) (i : Spec.inputs) (crt : option threshold)
    (t b : nat) :
  (s <= T)%nat ->
  Spec.vs (T - s) (suffix s i) crt t b = Spec.vs T i crt (s + t) b.
Proof.
  intros Hs. unfold Spec.vs, Spec.acc.
  rewrite acc_from_suffix by exact Hs. cbn [suffix Spec.values].
  rewrite get_skipn. now replace (T - s - t)%nat with (T - (s + t))%nat by lia.
Qed.

Lemma pg_advantages_suffix (T s : nat) (i : Spec.inputs)
    (crt cpt : option threshold) (t b : nat) :
  (s <= T)%nat ->
  Spec.pg_advantages (T - s) (suffix s i) crt cpt t b
  = Spec.pg_advantages T i crt cpt (s + t) b.
Proof.
  intros Hs.
  unfold Spec.pg_advantages, Spec.clipped_pg_rhos, Spec.td, Spec.vs_t_plus_1,
    Spec.shifted.
  rewrite rhos_suffix, vs_suffix by exact Hs.
  cbn [suffix Spec.discounts Spec.rewards Spec.values Spec.bootstrap_value].
  rewrite !get_skipn, Nat.add_succ_r.
  destruct (Nat.ltb_spec (S t) (T - s)), (Nat.ltb_spec (S (s + t)) T);
    try lia; reflexivity.
Qed.

(** X6.  The targets of a step never read the steps before it: the call on
    the trajectory with its first [s] steps dropped returns, at step [t],
    the entries that the call on the whole trajectory returns at step
    [s + t], for [vs] and for [pg_advantages]. *)
Theorem suffix_of_outputs
    (T B s : nat) (i : Spec.inputs) (crt cpt : option threshold) :
  Spec.valid T B i -> (s < T)%nat ->
  exists ret ret',
    Spec.run i crt cpt = Ok ret /\
    Spec.run (suffix s i) crt cpt = Ok ret' /\
    shape (vs ret') = [(T - s)%nat; B] /\
    forall t b, (s + t < T)%nat -> (b < B)%nat ->
      exists x a,
        entry (vs ret') t b = Ok x /\
        entry (vs ret) (s + t) b = Ok x /\
        entry (pg_advantages ret') t b = Ok a /\
        entry (pg_advantages ret) (s + t) b = Ok a.
Proof.
  intros Hv Hs. do 2 eexists.
  split; [apply (run_spec T B i crt cpt Hv) |].
  split; [apply (run_spec (T - s) B _ crt cpt (suffix_valid T B s i Hv Hs)) |].
  cbn [vs pg_advantages]. split; [apply shape_mat; lia |].
  intros t b Ht Hb.
  exists (Spec.vs T i crt (s + t) b), (Spec.pg_advantages T i crt cpt (s + t) b).
  repeat split; rewrite entry_mat by (assumption || lia); f_equal.
  - apply vs_suffix. lia.
  - apply pg_advantages_suffix. lia.
Qed.

Lemma suffix_of_outputs_witness :
  exists ret ret',
    Spec.run episode_b (Some (Finite 1)) None = Ok ret /\
    Spec.run (suffix 2 episode_b) (Some (Finite 1)) None = Ok ret' /\
    exists x a,
      entry (vs ret') 1 0 = Ok x /\
      entry (vs ret) 3 0 = Ok x /\
      entry (pg_advantages ret') 1 0 = Ok a /\
      entry (pg_advantages ret) 3 0 = Ok a.
Proof.
  destruct (suffix_of_outputs 4 1 2 episode_b (Some (Finite 1)) None
              ltac:(valid_by_computation) ltac:(lia))
    as (ret & ret' & H1 & H2 & _ & H).
  exists ret, ret'. split; [exact H1 |]. split; [exact H2 |].
  exact (H 1%nat 0%nat ltac:(lia) ltac:(lia)).
Defined.

(** ** Lanes of the batch *)

Lemma nth_map_default {A B : Type} (f : A -> B) (l : list A) (d : A) (d' : B)
    (n : nat) :
  f d = d' -> nth n (map f l) d' = f (nth n l d).
Proof. intros <-. apply map_nth. Qed.

Lemma get_column (b t : nat) (m : matrix) :
  get (column b m) t 0 = get m t b.
Proof.
  unfold get, column. destruct (Nat.lt_ge_cases t (length m)) as [Hlt | Hge].
  - rewrite (nth_indep _ [] [nth b [] 0]) by now rewrite length_map.
    now rewrite (map_nth (fun row => [nth b row 0]) m [] t).
  - rewrite (nth_overflow (map _ m)) by now rewrite length_map.
    rewrite (nth_overflow m) by assumption. now destruct b.
Qed.

Lemma is_matrix_column (T B b : nat) (m : matrix) :
  is_matrix T B m -> is_matrix T 1 (column b m).
Proof.
  intros [HT _]. unfold column. split; [now rewrite length_map |].
  apply Forall_map, Forall_forall. reflexivity.
Qed.

Lemma lane_valid (T B b : nat) (i : Spec.inputs) :
  Spec.valid T B i -> Spec.valid T 1 (lane b i).
Proof.
  intros (HT & HB & Hb & Ht & Hd & Hr & Hv & Hboot).
  unfold Spec.valid, lane. cbn.
  split; [exact HT |]. split; [lia |].
  repeat (split; [now apply (is_matrix_column T B) |]). reflexivity.
Qed.

Lemma rhos_lane (b : nat) (i : Spec.inputs) (t : nat) :
  Spec.rhos (lane b i) t 0 = Spec.rhos i t b.
Proof.
  unfold Spec.rhos, Spec.log_rhos.
  cbn [lane Spec.target_log_probs Spec.behaviour_log_probs].
  now rewrite !get_column.
Qed.

Lemma acc_from_lane (T b : nat) (i : Spec.inputs) (crt : option threshold) :
  forall n t,
    Spec.acc_from T (lane b i) crt n t 0 = Spec.acc_from T i crt n t b.
Proof.
  induction n as [| n IH]; intros t; [reflexivity |].
  cbn [Spec.acc_from]. rewrite IH.
  unfold Spec.deltas, Spec.clipped_rhos, Spec.cs, Spec.td,
    Spec.values_t_plus_1, Spec.shifted.
  rewrite rhos_lane. cbn [lane Spec.discounts Spec.rewards Spec.values
                           Spec.bootstrap_value].
  rewrite !get_column. reflexivity.
Qed.

Lemma vs_lane (T b : nat) (i : Spec.inputs) (crt : option threshold)
    (t : nat) :
  Spec.vs T (lane b i) crt t 0 = Spec.vs T i crt t b.
Proof.
  unfold Spec.vs, Spec.acc. rewrite acc_from_lane.
  cbn [lane Spec.values]. now rewrite get_column.
Qed.

(** X7.  The lanes of a batch do not interact: the call on lane [b] alone,
    as a batch of size 1, returns at every step the entries that the call
    on the whole batch returns on lane [b]. *)
Theorem lane_of_outputs
    (T B b : nat) (i : Spec.inputs) (crt cpt : option threshold) :
  Spec.valid T B i -> (b < B)%nat ->
  exists ret ret',
    Spec.run i crt cpt = Ok ret /\
    Spec.run (lane b i) crt cpt = Ok ret' /\
    forall t, (t < T)%nat ->
      exists x a,
        entry (vs ret') t 0 = Ok x /\
        entry (vs ret) t b = Ok x /\
        entry (pg_advantages ret') t 0 = Ok a /\
        entry (pg_advantages ret) t b = Ok a.
Proof.
  intros Hv Hb. do 2 eexists.
  split; [apply (run_spec T B i crt cpt Hv) |].
  split; [apply (run_spec T 1 _ crt cpt (lane_valid T B b i Hv)) |].
  cbn [vs pg_advantages]. intros t Ht.
  exists (Spec.vs T i crt t b), (Spec.pg_advantages T i crt cpt t b).
  repeat split; rewrite entry_mat by (assumption || lia); f_equal.
  - apply vs_lane.
  - unfold Spec.pg_advantages, Spec.clipped_pg_rhos, Spec.td,
      Spec.vs_t_plus_1, Spec.shifted.
    rewrite rhos_lane, !vs_lane.
    cbn [lane Spec.discounts Spec.rewards Spec.values Spec.bootstrap_value].
    rewrite !get_column. reflexivity.
Qed.

Lemma lane_of_outputs_witness :
  exists ret ret',
    Spec.run sample (Some (Finite 1)) None = Ok ret /\
    Spec.run (lane 1 sample) (Some (Finite 1)) None = Ok ret' /\
    exists x a,
      entry (vs ret') 0 0 = Ok x /\
      entry (vs ret) 0 1 = Ok x /\
      entry (pg_advantages ret') 0 0 = Ok a /\
      entry (pg_advantages ret) 0 1 = Ok a.
Proof.
  destruct (lane_of_outputs 2 2 1 sample (Some (Finite 1)) None
              ltac:(valid_by_computation) ltac:(lia))
    as (ret & ret' & H1 & H2 & H).
  exists ret, ret'. split; [exact H1 |]. split; [exact H2 |].
  exact (H 0%nat ltac:(lia)).
Defined.

(** ** Scaling rewards and values *)

Lemma get_scale_matrix (k : R) (m : matrix) (t b : nat) :
  get (scale_matrix k m) t b = k * get m t b.
Proof.
  unfold get, scale_matrix.
  rewrite (nth_map_default (map (Rmult k)) m [] [] t eq_refl).
  apply nth_map_default. ring.
Qed.

Lemma getv_scale (k : R) (v : vector) (b : nat) :
  getv (map (Rmult k) v) b = k * getv v b.
Proof. unfold getv. apply nth_map_default. ring. Qed.

Lemma is_matrix_scale (T B : nat) (k : R) (m : matrix) :
  is_matrix T B m -> is_matrix T B (scale_matrix k m).
Proof.
  intros [HT HB]. unfold scale_matrix. split; [now rewrite length_map |].
  apply Forall_map. revert HB. apply Forall_impl.
  intros row Hrow. now rewrite length_map.
Qed.

Lemma rescale_valid (T B : nat) (k : R) (i : Spec.inputs) :
  Spec.valid T B i -> Spec.valid T B (rescale k i).
Proof.
  intros (HT & HB & Hb & Ht & Hd & Hr & Hv & Hboot).
  unfold Spec.valid, rescale. cbn.
  repeat (split; [first [assumption | now apply is_matrix_scale] |]).
  now rewrite length_map.
Qed.

Lemma acc_from_rescale (T : nat) (k : R) (i : Spec.inputs)
    (crt : option threshold) (b : nat) :
  forall n t,
    Spec.acc_from T (rescale k i) crt n t b = k * Spec.acc_from T i crt n t b.
Proof.
  induction n as [| n IH]; intros t; [cbn; ring |].
  cbn [Spec.acc_from]. rewrite IH.
  unfold Spec.deltas, Spec.clipped_rhos, Spec.cs, Spec.td, Spec.rhos,
    Spec.log_rhos, Spec.values_t_plus_1, Spec.shifted.
  cbn [rescale Spec.discounts Spec.rewards Spec.values Spec.bootstrap_value
       Spec.target_log_probs Spec.behaviour_log_probs].
  rewrite !get_scale_matrix, getv_scale.
  destruct (S t <? T)%nat; ring.
Qed.

Lemma vs_rescale (T : nat) (k : R) (i : Spec.inputs) (crt : option threshold)
    (t b : nat) :
  Spec.vs T (rescale k i) crt t b = k * Spec.vs T i crt t b.
Proof.
  unfold Spec.vs, Spec.acc. rewrite acc_from_rescale.
  cbn [rescale Spec.values]. rewrite get_scale_matrix. ring.
Qed.

(** X8.  The outputs are homogeneous in the rewards and value estimates:
    multiplying [rewards], [values] and [bootstrap_value] by [k], with the
    log-probabilities, the discounts and the thresholds kept, multiplies
    every entry of [vs] and of [pg_advantages] by [k]. *)
Theorem rescale_outputs
    (T B : nat) (k : R) (i : Spec.inputs) (crt cpt : option threshold) :
  Spec.valid T B i ->
  exists ret ret',
    Spec.run i crt cpt = Ok ret /\
    Spec.run (rescale k i) crt cpt = Ok ret' /\
    forall t b, (t < T)%nat -> (b < B)%nat ->
      exists x a,
        entry (vs ret) t b = Ok x /\
        entry (vs ret') t b = Ok (k * x) /\
        entry (pg_advantages ret) t b = Ok a /\
        entry (pg_advantages ret') t b = Ok (k * a).
Proof.
  intros Hv. do 2 eexists.
  split; [apply (run_spec T B i crt cpt Hv) |].
  split; [apply (run_spec T B _ crt cpt (rescale_valid T B k i Hv)) |].
  cbn [vs pg_advantages]. intros t b Ht Hb.
  exists (Spec.vs T i crt t b), (Spec.pg_advantages T i crt cpt t b).
  repeat split; rewrite entry_mat by assumption; f_equal.
  - apply vs_rescale.
  - unfold Spec.pg_advantages, Spec.clipped_pg_rhos, Spec.td, Spec.rhos,
      Spec.log_rhos, Spec.vs_t_plus_1, Spec.shifted.
    rewrite !vs_rescale.
    cbn [rescale Spec.discounts Spec.rewards Spec.values Spec.bootstrap_value
         Spec.target_log_probs Spec.behaviour_log_probs].
    rewrite !get_scale_matrix, getv_scale.
    destruct (S t <? T)%nat; ring.
Qed.

Lemma rescale_outputs_witness :
  exists ret ret',
    Spec.run sample (Some (Finite 1)) None = Ok ret /\
    Spec.run (rescale 3 sample) (Some (Finite 1)) None = Ok ret' /\
    exists x a,
      entry (vs ret) 0 0 = Ok x /\
      entry (vs ret') 0 0 = Ok (3 * x) /\
      entry (pg_advantages ret) 0 0 = Ok a /\
      entry (pg_advantages ret') 0 0 = Ok (3 * a).
Proof.
  destruct (rescale_outputs 2 2 3 sample (Some (Finite 1)) None
              ltac:(valid_by_computation))
    as (ret & ret' & H1 & H2 & H).
  exists ret, ret'. split; [exact H1 |]. split; [exact H2 |].
  exact (H 0%nat 0%nat ltac:(lia) ltac:(lia)).
Defined.

(** ** Ranges of the coefficients *)

Lemma fclip_range (m : R) (rho : fnum) :
  (rho = PInf \/ exists r, rho = Num r /\ 0 <= r <= FLT_MAX) ->
  exists x, fclip (Finite m) rho = Num x /\ x <= m /\
            (forall r, rho = Num r -> x <= r).
Proof.
  pose proof FLT_MAX_pos as Hmax.
  intros [-> | (r & -> & Hr)]; cbn [fclip].
  - exists m. split; [reflexivity |]. split; [lra | discriminate].
  - destruct (Rlt_dec r (- FLT_MAX)); [lra |].
    destruct (Rlt_dec m r).
    + exists m. split; [reflexivity |]. split; [lra |].
      intros r' [= <-]. lra.
    + exists r. split; [reflexivity |]. split; [lra |].
      intros r' [= <-]. lra.
Qed.

(** X9.  On every valid input of finite float32 numbers an importance ratio
    is [+inf], where [exp] overflows, or a number from 0 to the largest
    float32, 0 where [exp] underflows; it is never negative and never NaN.
    A trace-cutting coefficient is a number from 0 to 1, at most the ratio.
    A ratio clipped at a finite threshold is a number, at most the threshold
    and at most the ratio; without threshold it is the ratio itself. *)
Theorem coefficient_ranges
    (T B : nat) (i : Table.inputs f32) (crt cpt : option threshold) :
  finite_inputs T B i ->
  exists l,
    Table.run_locals f32 i crt cpt = Ok l /\
    forall t b, (t < T)%nat -> (b < B)%nat ->
      exists rho c rc rp,
        entry (Locals.rhos l) t b = Ok rho /\
        entry (Locals.cs l) t b = Ok (Num c) /\
        entry (Locals.clipped_rhos l) t b = Ok rc /\
        entry (Locals.clipped_pg_rhos l) t b = Ok rp /\
        (rho = PInf \/ exists r, rho = Num r /\ 0 <= r <= FLT_MAX) /\
        0 <= c <= 1 /\
        (forall r, rho = Num r -> c <= r) /\
        (crt = None -> rc = rho) /\
        (cpt = None -> rp = rho) /\
        (forall m, crt = Some (Finite m) ->
           exists x, rc = Num x /\ x <= m /\ forall r, rho = Num r -> x <= r) /\
        (forall m, cpt = Some (Finite m) ->
           exists x, rp = Num x /\ x <= m /\ forall r, rho = Num r -> x <= r).
Proof.
  intros Hfin. pose proof Hfin as [Hv _].
  eexists. split; [apply (run_locals_table f32 T B i crt cpt Hv) |].
  cbn [Table.locals Locals.rhos Locals.cs Locals.clipped_rhos
       Locals.clipped_pg_rhos].
  intros t b Ht Hb.
  pose proof (rhos_range T B i t b Hfin Ht Hb) as Hrho.
  destruct (cs_range _ Hrho) as (c & Hc & Hc01).
  destruct (fclip_range 1 _ Hrho) as (c' & Hc' & _ & Hle).
  f32_ops.
  assert (c' = c) as -> by congruence.
  exists (Table.rhos f32 i t b), c, (Table.clipped_rhos f32 i crt t b),
    (Table.clipped_pg_rhos f32 i cpt t b).
  split; [now apply entry_mat |].
  split; [rewrite entry_mat by assumption; unfold Table.cs; f32_ops;
          now rewrite Hc |].
  split; [now apply entry_mat |].
  split; [now apply entry_mat |].
  split; [exact Hrho |]. split; [exact Hc01 |]. split; [exact Hle |].
  unfold Table.clipped_rhos, Table.clipped_pg_rhos.
  split; [now intros -> |]. split; [now intros -> |].
  split; intros m ->; cbn [Table.clipped]; f32_ops;
    now apply fclip_range.
Qed.

(** On [ratio_underflow] the ratio [exp (-200)] is the float 0, and so is
    the trace-cutting coefficient. *)
Lemma coefficient_ranges_witness :
  exists l,
    Table.run_locals f32 ratio_underflow (Some (Finite 2)) None = Ok l /\
    entry (Locals.rhos l) 0 0 = Ok (Num 0) /\
    entry (Locals.cs l) 0 0 = Ok (Num 0) /\
    exists x, entry (Locals.clipped_rhos l) 0 0 = Ok (Num x) /\ x <= 2.
Proof.
  assert (Hfin : finite_inputs 1 1 ratio_underflow)
    by f32_valid_by_computation.
  destruct (coefficient_ranges 1 1 ratio_underflow (Some (Finite 2)) None
              Hfin) as (l & Hl & H).
  exists l. split; [exact Hl |].
  destruct (H 0%nat 0%nat ltac:(lia) ltac:(lia))
    as (rho & c & rc & rp & H1 & H2 & H3 & _ & _ & H6 & H7 & _ & _ & H10 & _).
  assert (Hrho : rho = Num 0).
  { destruct Hfin as [Hv _].
    rewrite (run_locals_table f32 1 1 ratio_underflow _ _ Hv) in Hl.
    injection Hl as <-. cbn [Table.locals Locals.rhos] in H1.
    rewrite entry_mat in H1 by lia. injection H1 as <-.
    unfold ratio_underflow. f32_table. f32_eval. reflexivity. }
  subst rho. pose proof (H7 0 eq_refl) as Hc0.
  assert (c = 0) as -> by lra.
  split; [exact H1 |]. split; [exact H2 |].
  destruct (H10 2 eq_refl) as (x & -> & Hx & _).
  exists x. split; [exact H3 | exact Hx].
Defined.

(** ** What each threshold reaches *)

Ltac invert_binds :=
  repeat match goal with
         | |- bind ?m _ = Ok _ -> _ =>
             destruct m as [? | ?]; cbn [bind];
             [| let H := fresh in intros H; discriminate H]
         | |- (let (_, _) := ?p in _) = Ok _ -> _ => destruct p
         end.

(** X10.  [clip_pg_rho_threshold] reaches [pg_advantages] only: on any
    tensors, two calls that differ in that threshold alone and both return
    have the same [deltas], the same accumulators and the same [vs]. *)
Theorem vs_ignores_pg_threshold
    (behaviour_actions_log_probs target_actions_log_probs
     discounts rewards values bootstrap_value : tensor R)
    (crt cpt cpt' : option threshold) (l l' : Locals.t R) :
  from_importance_weights_locals
    behaviour_actions_log_probs target_actions_log_probs
    discounts rewards values bootstrap_value crt cpt = Ok l ->
  from_importance_weights_locals
    behaviour_actions_log_probs target_actions_log_probs
    discounts rewards values bootstrap_value crt cpt' = Ok l' ->
  Locals.deltas l = Locals.deltas l' /\
  Locals.vs_minus_v_xs l = Locals.vs_minus_v_xs l' /\
  Locals.vs l = Locals.vs l' /\
  Locals.vs_t_plus_1 l = Locals.vs_t_plus_1 l'.
Proof.
  unfold from_importance_weights_locals. invert_binds.
  intros [= <-]. invert_binds. intros [= <-]. repeat split.
Qed.

Lemma vs_ignores_pg_threshold_witness :
  exists l l',
    Spec.run_locals sample (Some (Finite 1)) (Some (Finite 1)) = Ok l /\
    Spec.run_locals sample (Some (Finite 1)) None = Ok l' /\
    Locals.vs l = Locals.vs l'.
Proof.
  assert (Hv : Spec.valid 2 2 sample) by valid_by_computation.
  pose proof (run_locals_spec 2 2 sample (Some (Finite 1)) (Some (Finite 1))
                Hv) as H1.
  pose proof (run_locals_spec 2 2 sample (Some (Finite 1)) None Hv) as H2.
  do 2 eexists. split; [exact H1 |]. split; [exact H2 |].
  unfold Spec.run_locals in H1, H2.
  apply (vs_ignores_pg_threshold _ _ _ _ _ _ _ _ _ _ _ H1 H2).
Defined.

(** ** Arrays of rank 1 *)

Lemma get_as_column (v : vector) (t : nat) :
  get (as_column v) t 0 = getv v t.
Proof.
  unfold get, getv, as_column.
  destruct (Nat.lt_ge_cases t (length v)) as [Hlt | Hge].
  - rewrite (nth_indep _ [] [0]) by now rewrite length_map.
    now rewrite (map_nth (fun x => [x]) v 0 t).
  - rewrite (nth_overflow (map _ v)) by now rewrite length_map.
    now rewrite (nth_overflow v) by assumption.
Qed.

Lemma is_matrix_as_column (T : nat) (v : vector) :
  length v = T -> is_matrix T 1 (as_column v).
Proof.
  intros HT. unfold as_column. split; [now rewrite length_map |].
  apply Forall_map, Forall_forall. reflexivity.
Qed.

Lemma as_batch_valid (T : nat) (i : inputs1) :
  valid1 T i -> Spec.valid T 1 (as_batch i).
Proof.
  intros (HT & Hb & Ht & Hd & Hr & Hv).
  unfold Spec.valid, as_batch. cbn.
  split; [exact HT |]. split; [lia |].
  repeat (split; [now apply is_matrix_as_column |]). reflexivity.
Qed.

Lemma of_vector_as_column (T : nat) (v : vector) :
  length v = T -> of_vector v = vec T (fun t => get (as_column v) t 0).
Proof.
  intros <-. rewrite of_vector_vec. apply vec_ext.
  intros t _. now rewrite get_as_column.
Qed.

Lemma shape0_vec (T : nat) (g : nat -> R) : shape0 (vec T g) = Ok T.
Proof. unfold shape0. now rewrite shape_vec. Qed.

Lemma slice_vec (T : nat) (g : nat -> R) :
  slice_from_1 (vec T g)
  = Ok (Dim [] (tl (tabulate T (fun t => Scalar (g t))))).
Proof. now rewrite vec_items. Qed.

Lemma concat_shift_vec (T : nat) (g : nat -> R) (boot : R) :
  (1 <= T)%nat ->
  concat (Dim [] (tl (tabulate T (fun t => Scalar (g t)))))
    (unsqueeze (Scalar boot))
  = Ok (vec T (fun t => if (S t <? T)%nat then g (S t) else boot)).
Proof.
  intros HT. rewrite vec_items. destruct T as [| n]; [lia |].
  rewrite tabulate_cons. cbn [tl]. unfold concat, unsqueeze.
  cbn [shape]. rewrite shape_eqb_refl. do 2 f_equal.
  rewrite tabulate_S. f_equal.
  - apply tabulate_ext. intros k Hk.
    destruct (Nat.ltb_spec (S k) (S n)); [reflexivity | lia].
  - now rewrite Nat.ltb_irrefl.
Qed.

Lemma stack_scalars (T : nat) (g : nat -> R) :
  (1 <= T)%nat -> stack (tabulate T (fun t => Scalar (g t))) = Ok (vec T g).
Proof.
  intros HT. rewrite vec_items. unfold stack.
  rewrite (same_shapes_all []).
  - destruct T; [lia |]. unfold tabulate at 1. cbn [seq map]. reflexivity.
  - apply Forall_tabulate. reflexivity.
Qed.

Lemma clip_option_vec (T : nat) (thr : option threshold) (g : nat -> R) :
  match thr with
  | Some m => clip (vec T g) m
  | None => vec T g
  end = vec T (fun t => Spec.clipped thr (g t)).
Proof. destruct thr; [apply tmap_vec | reflexivity]. Qed.

Section Rank1.
Variable T : nat.
Variable i : inputs1.
Variables crt cpt : option threshold.

Lemma loop_body_rank1 (k : nat) (res : list (tensor R)) :
  (k < T)%nat ->
  loop_body (vec T (fun t => Spec.deltas T (as_batch i) crt t 0))
    (vec T (fun t => get (Spec.discounts (as_batch i)) t 0))
    (vec T (fun t => Spec.cs (as_batch i) t 0)) k
    (Scalar (Spec.acc T (as_batch i) crt (S k) 0), res)
  = Ok (Scalar (Spec.acc T (as_batch i) crt k 0),
        res ++ [Scalar (Spec.acc T (as_batch i) crt k 0)]).
Proof.
  intros Hk. unfold loop_body, tmul, tadd.
  rewrite !tindex_vec by exact Hk. cbn [bind].
  unfold binop. cbn [rank shape length Nat.sub unsqueeze_n broadcast bind].
  now rewrite (acc_step T (as_batch i) crt k 0 Hk).
Qed.

Lemma for_loop_rank1 (k : nat) (res : list (tensor R)) :
  (k <= T)%nat ->
  for_loop (vec T (fun t => Spec.deltas T (as_batch i) crt t 0))
    (vec T (fun t => get (Spec.discounts (as_batch i)) t 0))
    (vec T (fun t => Spec.cs (as_batch i) t 0)) (range_down k)
    (Scalar (Spec.acc T (as_batch i) crt k 0), res)
  = Ok (Scalar (Spec.acc T (as_batch i) crt 0 0),
        res ++ rev (tabulate k
                      (fun t => Scalar (Spec.acc T (as_batch i) crt t 0)))).
Proof.
  revert res. induction k as [| k IH]; intros res Hk.
  - unfold range_down, tabulate. cbn [seq rev map for_loop].
    now rewrite app_nil_r.
  - rewrite range_down_S. cbn [for_loop].
    rewrite loop_body_rank1 by lia. cbn [bind].
    rewrite IH by lia. rewrite tabulate_S, rev_app_distr, <- app_assoc.
    reflexivity.
Qed.

Hypothesis Hvalid : valid1 T i.

Lemma run1_spec :
  run1 i crt cpt
  = Ok (mkVTraceReturns
          (vec T (fun t => Spec.vs T (as_batch i) crt t 0))
          (vec T (fun t => Spec.pg_advantages T (as_batch i) crt cpt t 0))).
Proof.
  destruct Hvalid as (HT & Hb & Ht & Hd & Hr & Hv).
  unfold run1, from_importance_weights, from_importance_weights_locals.
  rewrite (of_vector_as_column T _ Hb), (of_vector_as_column T _ Ht),
    (of_vector_as_column T _ Hd), (of_vector_as_column T _ Hr),
    (of_vector_as_column T _ Hv).
  unfold rank_is, rank. rewrite !shape_vec.
  cbn [shape length assert Z.eqb Z.of_nat Pos.of_succ_nat Pos.succ Z.sub
       Z.add Z.opp Z.pos_sub Pos.pred_double Pos.eqb bind].
  unfold tsub, tmul, tadd, texp.
  rewrite binop_vec. cbn [bind]. rewrite tmap_vec.
  rewrite !clip_option_vec. unfold clip. rewrite tmap_vec.
  rewrite slice_vec. cbn [bind]. rewrite concat_shift_vec by exact HT.
  cbn [bind]. rewrite binop_vec. cbn [bind]. rewrite binop_vec. cbn [bind].
  rewrite binop_vec. cbn [bind]. rewrite binop_vec. cbn [bind].
  rewrite shape0_vec. cbn [bind].
  unfold zeros_like. cbn [tmap].
  pose proof (for_loop_rank1 T [] (le_n T)) as Hloop.
  rewrite (acc_end T (as_batch i) crt T 0 (le_n T)) in Hloop.
  match type of Hloop with
  | ?lhs = _ =>
      match goal with
      | |- context [for_loop ?d ?g ?c ?ts ?st] =>
          change (for_loop d g c ts st) with lhs
      end
  end.
  rewrite Hloop. cbn [bind app]. rewrite rev_involutive.
  rewrite stack_scalars by exact HT. cbn [bind].
  rewrite binop_vec. cbn [bind].
  rewrite slice_vec. cbn [bind]. rewrite concat_shift_vec by exact HT.
  cbn [bind]. rewrite binop_vec. cbn [bind]. rewrite binop_vec. cbn [bind].
  rewrite binop_vec. cbn [bind]. rewrite binop_vec. cbn [bind].
  reflexivity.
Qed.
End Rank1.

(** X11.  The function is not tied to rank 2.  On arrays of rank 1, one
    entry per time step, with a scalar [bootstrap_value], the call returns
    arrays of shape [T] whose entries are those the call returns on the same
    trajectory given as a [T, 1] batch. *)
Theorem rank1_call_is_one_lane
    (T : nat) (i : inputs1) (crt cpt : option threshold) :
  valid1 T i ->
  exists ret ret',
    run1 i crt cpt = Ok ret /\
    Spec.run (as_batch i) crt cpt = Ok ret' /\
    shape (vs ret) = [T] /\
    shape (pg_advantages ret) = [T] /\
    forall t, (t < T)%nat ->
      exists x a,
        entry1 (vs ret) t = Ok x /\
        entry (vs ret') t 0 = Ok x /\
        entry1 (pg_advantages ret) t = Ok a /\
        entry (pg_advantages ret') t 0 = Ok a.
Proof.
  intros Hv. do 2 eexists.
  split; [apply (run1_spec T i crt cpt Hv) |].
  split; [apply (run_spec T 1 _ crt cpt (as_batch_valid T i Hv)) |].
  cbn [vs pg_advantages]. rewrite !shape_vec.
  do 2 (split; [reflexivity |]). intros t Ht.
  exists (Spec.vs T (as_batch i) crt t 0),
    (Spec.pg_advantages T (as_batch i) crt cpt t 0).
  unfold entry1.
  repeat split;
    first [rewrite tindex_vec by exact Ht; reflexivity
          | apply entry_mat; (assumption || lia)].
Qed.

Lemma rank1_call_is_one_lane_witness :
  exists ret ret',
    run1 sample1 (Some (Finite 1)) None = Ok ret /\
    Spec.run (as_batch sample1) (Some (Finite 1)) None = Ok ret' /\
    exists x a,
      entry1 (vs ret) 0 = Ok x /\
      entry (vs ret') 0 0 = Ok x /\
      entry1 (pg_advantages ret) 0 = Ok a /\
      entry (pg_advantages ret') 0 0 = Ok a.
Proof.
  destruct (rank1_call_is_one_lane 2 sample1 (Some (Finite 1)) None)
    as (ret & ret' & H1 & H2 & _ & _ & H).
  { unfold valid1. cbn. repeat split; lia. }
  exists ret, ret'. split; [exact H1 |]. split; [exact H2 |].
  exact (H 0%nat ltac:(lia)).
Defined.

(** ** Lowering the policy-gradient threshold *)

(** X12.  [clip_pg_rho_threshold] only scales the advantages: with positive
    thresholds [c' <= c], each entry of [pg_advantages] is
    [min(rhos, c') * a] under [c'] and [min(rhos, c) * a] under [c] for one
    and the same [a], so its magnitude under [c'] never exceeds its
    magnitude under [c]. *)
Theorem pg_clipping_never_grows
    (T B : nat) (i : Spec.inputs) (crt : option threshold) (c c' : R) :
  Spec.valid T B i -> 0 < c' -> c' <= c ->
  exists ret ret',
    Spec.run i crt (Some (Finite c)) = Ok ret /\
    Spec.run i crt (Some (Finite c')) = Ok ret' /\
    vs ret = vs ret' /\
    forall t b, (t < T)%nat -> (b < B)%nat ->
      exists a,
        let rho := exp (get (Spec.target_log_probs i) t b
                        - get (Spec.behaviour_log_probs i) t b) in
        entry (pg_advantages ret) t b = Ok (Rmin rho c * a) /\
        entry (pg_advantages ret') t b = Ok (Rmin rho c' * a) /\
        Rabs (Rmin rho c' * a) <= Rabs (Rmin rho c * a).
Proof.
  intros Hv Hc' Hcc. do 2 eexists.
  split; [apply (run_spec T B i crt _ Hv) |].
  split; [apply (run_spec T B i crt _ Hv) |].
  cbn [vs pg_advantages]. split; [reflexivity |].
  intros t b Ht Hb. exists (Spec.td i (Spec.vs_t_plus_1 T i crt) t b).
  cbn zeta. rewrite !entry_mat by assumption.
  do 2 (split; [reflexivity |]).
  set (rho := exp _). set (a := Spec.td _ _ _ _).
  assert (Hrho : 0 < rho) by apply exp_pos.
  assert (H1 : 0 < Rmin rho c') by (apply Rmin_glb_lt; lra).
  assert (H2 : Rmin rho c' <= Rmin rho c).
  { apply Rmin_glb; [apply Rmin_l |].
    apply Rle_trans with c'; [apply Rmin_r | exact Hcc]. }
  rewrite !Rabs_mult, !(Rabs_right (Rmin _ _)) by lra.
  pose proof (Rabs_pos a). nra.
Qed.

Lemma pg_clipping_never_grows_witness :
  exists ret ret',
    Spec.run sample None (Some (Finite 2)) = Ok ret /\
    Spec.run sample None (Some (Finite 1)) = Ok ret' /\
    vs ret = vs ret'.
Proof.
  destruct (pg_clipping_never_grows 2 2 sample None 2 1
              ltac:(valid_by_computation) ltac:(lra) ltac:(lra))
    as (ret & ret' & H1 & H2 & H3 & _).
  exists ret, ret'. repeat split; assumption.
Defined.
